(** * Thoonk sorted feed: [thoonk/feeds/sorted_feed.py]

    A sorted feed keeps, in one Redis database, the ordered list of item ids
    ([feed_ids]), the hash from id to item ([feed_items]), the id counter
    ([feed_id_incr]) and the publish counter ([feed_publishes]), and it
    announces changes on two pub/sub channels ([feed_publish],
    [feed_retract]).

    The Redis server is not part of the repository.  Its commands are
    modelled here as functions on a record holding the feed's keys:
    - ids are kept as integers; Redis stores their decimal rendering, which
      [str] gives where the code formats an id into a message;
    - counters are unbounded integers, as Python's are (the 64-bit ceiling of
      the server's INCR is outside the model);
    - [lrem] takes its arguments in the order the code passes them,
      [lrem(name, value, num)].

    Two history variables are carried next to the keys: the messages sent on
    the channels and the replies of INCR on [feed_id_incr]. *)

From Stdlib Require Import ZArith DecimalString DecimalZ DecimalPos Ascii.
From stdpp Require Import gmap strings list relations sorting.

Open Scope Z_scope.

(** ** Keys and channels of one feed *)

Inductive list_key := feed_ids.
Inductive hash_key := feed_items.
Inductive counter_key := feed_id_incr | feed_publishes.
Inductive channel := feed_publish | feed_retract.

(** The [method] argument of [__insert], handed on to LINSERT. *)
Inductive method := BEFORE | AFTER.

(** ** The database *)

Record store := Store {
  order : list Z;                       (* the list at feed_ids *)
  content : gmap Z string;              (* the hash at feed_items *)
  id_counter : Z;                       (* the integer at feed_id_incr *)
  publish_counter : Z;                  (* the integer at feed_publishes *)
  outbox : list (channel * string);     (* messages sent, oldest first *)
  handed_out : list Z                   (* replies of INCR feed_id_incr, oldest first *)
}.

(** A feed nobody has written to: every key is missing. *)
Definition empty_feed : store :=
  {| order := []; content := ∅; id_counter := 0; publish_counter := 0;
     outbox := []; handed_out := [] |}.

(** ** A state monad for round trips to the server *)

Definition Redis (A : Type) : Type := store → A * store.

#[global] Instance redis_ret : MRet Redis := λ A a s, (a, s).
#[global] Instance redis_bind : MBind Redis :=
  λ A B f c s, let '(a, s') := c s in f a s'.

Definition value {A} (c : Redis A) (s : store) : A := (c s).1.
Definition after {A} (c : Redis A) (s : store) : store := (c s).2.

(** ** Redis commands *)

(** ['%s' % id]: the decimal rendering of an integer. *)
Definition str (z : Z) : string := NilZero.string_of_int (Z.to_int z).

(** ['%s\x00%s' % (id, item)] *)
Definition id_item (id : Z) (item : string) : string :=
  str id +:+ String Ascii.zero item.

(** INCR: add one, reply with the new value. *)
Definition incr (k : counter_key) : Redis Z := λ s,
  match k with
  | feed_id_incr =>
      let n := id_counter s + 1 in
      (n, {| order := order s; content := content s; id_counter := n;
             publish_counter := publish_counter s; outbox := outbox s;
             handed_out := handed_out s ++ [n] |})
  | feed_publishes =>
      let n := publish_counter s + 1 in
      (n, {| order := order s; content := content s; id_counter := id_counter s;
             publish_counter := n; outbox := outbox s;
             handed_out := handed_out s |})
  end.

Definition with_order (f : list Z → list Z) (s : store) : store :=
  {| order := f (order s); content := content s; id_counter := id_counter s;
     publish_counter := publish_counter s; outbox := outbox s;
     handed_out := handed_out s |}.

Definition with_content (f : gmap Z string → gmap Z string) (s : store) : store :=
  {| order := order s; content := f (content s); id_counter := id_counter s;
     publish_counter := publish_counter s; outbox := outbox s;
     handed_out := handed_out s |}.

(** LINSERT on a list: next to the first element equal to the pivot; a list
    without the pivot is left as it is. *)
Fixpoint linsert_list (m : method) (pivot v : Z) (l : list Z) : list Z :=
  match l with
  | [] => []
  | x :: l' =>
      if decide (x = pivot)
      then match m with
           | BEFORE => v :: x :: l'
           | AFTER => x :: v :: l'
           end
      else x :: linsert_list m pivot v l'
  end.

(** LREM with a positive count: drop the first [num] elements equal to [v],
    from the head. *)
Fixpoint lrem_first (num : nat) (v : Z) (l : list Z) : list Z :=
  match num, l with
  | O, _ => l
  | S _, [] => []
  | S n, x :: l' =>
      if decide (x = v) then lrem_first n v l' else x :: lrem_first num v l'
  end.

(** LREM: count 0 drops every element equal to [v]. *)
Definition lrem_list (num : nat) (v : Z) (l : list Z) : list Z :=
  match num with
  | O => filter (λ x, x ≠ v) l
  | S _ => lrem_first num v l
  end.

Definition lpush (k : list_key) (v : Z) : store → store :=
  with_order (λ l, v :: l).
Definition rpush (k : list_key) (v : Z) : store → store :=
  with_order (λ l, l ++ [v]).
Definition linsert (k : list_key) (m : method) (pivot v : Z) : store → store :=
  with_order (linsert_list m pivot v).
Definition lrem (k : list_key) (v : Z) (num : nat) : store → store :=
  with_order (lrem_list num v).
Definition hset (k : hash_key) (f : Z) (v : string) : store → store :=
  with_content (<[f := v]>).
Definition hdel (k : hash_key) (f : Z) : store → store :=
  with_content (delete f).
Definition send (c : channel) (msg : string) (s : store) : store :=
  {| order := order s; content := content s; id_counter := id_counter s;
     publish_counter := publish_counter s; outbox := outbox s ++ [(c, msg)];
     handed_out := handed_out s |}.

Definition hexists (k : hash_key) (f : Z) (s : store) : bool :=
  bool_decide (is_Some (content s !! f)).
Definition hget (k : hash_key) (f : Z) (s : store) : option string :=
  content s !! f.
Definition hgetall (k : hash_key) (s : store) : gmap Z string := content s.
(** [lrange(key, 0, -1)]: the whole list. *)
Definition lrange_all (k : list_key) (s : store) : list Z := order s.

(** ** Pipelines

    [redis.pipeline()] buffers commands; [execute()] sends them between MULTI
    and EXEC, and the server runs them in order with nothing in between. *)

Inductive queued :=
  | Lpush (k : list_key) (v : Z)
  | Rpush (k : list_key) (v : Z)
  | Linsert (k : list_key) (m : method) (pivot v : Z)
  | Lrem (k : list_key) (v : Z) (num : nat)
  | Hset (k : hash_key) (f : Z) (v : string)
  | Hdel (k : hash_key) (f : Z)
  | Incr (k : counter_key)
  | Publish (c : channel) (msg : string).

Definition run_queued (q : queued) (s : store) : store :=
  match q with
  | Lpush k v => lpush k v s
  | Rpush k v => rpush k v s
  | Linsert k m pivot v => linsert k m pivot v s
  | Lrem k v num => lrem k v num s
  | Hset k f v => hset k f v s
  | Hdel k f => hdel k f s
  | Incr k => (incr k s).2
  | Publish c msg => send c msg s
  end.

Definition run_pipe (pipe : list queued) (s : store) : store :=
  foldl (λ s q, run_queued q s) s pipe.

(** [pipe.execute()] when the EXEC is not aborted; the replies are unused. *)
Definition execute (pipe : list queued) : Redis unit := λ s,
  ((), run_pipe pipe s).

(** Does a queued command write the hash that the feed's loops WATCH? *)
Definition writes_items (q : queued) : bool :=
  match q with
  | Hset feed_items _ _ | Hdel feed_items _ => true
  | _ => false
  end.

(** ** The watch-and-retry loop

    [edit], [retract] and [__insert] share one loop: WATCH the item hash,
    test HEXISTS, return at once when the test fails (after UNWATCH), else
    queue a pipeline and execute it; a [WatchError] starts the loop again.
    The server aborts the EXEC of a connection whose watched key was written
    by another connection since the WATCH. *)

Record attempt := Attempt {
  guard : store → bool;
  pipe : list queued
}.

Inductive phase :=
  | AtWatch                   (* about to call watch(feed_items) *)
  | AtCheck (dirty : bool)    (* watching; about to call hexists *)
  | AtExec (dirty : bool)     (* pipeline queued; about to call execute *)
  | Returned.

(** One round trip of a connection running the loop.  The boolean tells
    whether the round trip committed a pipeline. *)
Definition client_step (a : attempt) (ph : phase) (s : store)
  : option (phase * store * bool) :=
  match ph with
  | AtWatch => Some (AtCheck false, s, false)
  | AtCheck d => Some (if guard a s then AtExec d else Returned, s, false)
  | AtExec true => Some (AtWatch, s, false)
  | AtExec false => Some (Returned, after (execute (pipe a)) s, true)
  | Returned => None
  end.

(** A connection with the server to itself. *)
Fixpoint run_alone (fuel : nat) (a : attempt) (ph : phase) (s : store)
  : option store :=
  match fuel with
  | O => None
  | S n =>
      match client_step a ph s with
      | None => Some s
      | Some (ph', s', _) => run_alone n a ph' s'
      end
  end.

(** What the loop does when no other connection writes in between: one
    pass.  The reply tells whether the pipeline was committed. *)
Definition unchallenged (a : attempt) : Redis bool := λ s,
  if guard a s then (true, after (execute (pipe a)) s) else (false, s).

(** ** The feed's methods *)

(** [prepend], lines 63-77. *)
Definition prepend (item : string) : Redis Z :=
  id ← incr feed_id_incr;
  _ ← execute [Lpush feed_ids id;
               Incr feed_publishes;
               Hset feed_items id item;
               Publish feed_publish (id_item id item)];
  mret id.

Definition insert_attempt (id : Z) (item : string) (rel_id : Z) (m : method)
  : attempt :=
  {| guard := hexists feed_items rel_id;
     pipe := [Linsert feed_ids m rel_id id;
              Hset feed_items id item;
              Publish feed_publish (id_item id item)] |}.

(** [__insert], lines 79-108; it returns [None] when [rel_id] is missing. *)
Definition __insert (item : string) (rel_id : Z) (m : method)
  : Redis (option Z) :=
  id ← incr feed_id_incr;
  ok ← unchallenged (insert_attempt id item rel_id m);
  mret (if ok : bool then Some id else None).

(** [publish], lines 110-126. *)
Definition publish (item : string) : Redis Z :=
  id ← incr feed_id_incr;
  _ ← execute [Rpush feed_ids id;
               Incr feed_publishes;
               Hset feed_items id item;
               Publish feed_publish (id_item id item)];
  mret id.

Definition append (item : string) : Redis Z := publish item.

Definition edit_attempt (id : Z) (item : string) : attempt :=
  {| guard := hexists feed_items id;
     pipe := [Hset feed_items id item;
              Incr feed_publishes;
              Publish feed_publish (id_item id item)] |}.

(** [edit], lines 128-151. *)
Definition edit (id : Z) (item : string) : Redis unit :=
  _ ← unchallenged (edit_attempt id item); mret ().

Definition publish_before (before_id : Z) (item : string) : Redis (option Z) :=
  __insert item before_id BEFORE.

Definition publish_after (after_id : Z) (item : string) : Redis (option Z) :=
  __insert item after_id AFTER.

Definition retract_attempt (id : Z) : attempt :=
  {| guard := hexists feed_items id;
     pipe := [Lrem feed_ids id 1;
              Hdel feed_items id;
              Publish feed_retract (str id)] |}.

(** [retract], lines 173-194. *)
Definition retract (id : Z) : Redis unit :=
  _ ← unchallenged (retract_attempt id); mret ().

Definition get_ids (s : store) : list Z := lrange_all feed_ids s.
Definition get_item (id : Z) (s : store) : option string := hget feed_items id s.
Definition get_items (s : store) : gmap Z string := hgetall feed_items s.

(** ** Sequences of calls *)

Inductive call :=
  | Append (item : string)
  | Prepend (item : string)
  | PublishTail (item : string)
  | PublishBefore (before_id : Z) (item : string)
  | PublishAfter (after_id : Z) (item : string)
  | Edit (id : Z) (item : string)
  | Retract (id : Z).

(** The value a call returns: the new id, or [None] where Python returns
    [None]. *)
Definition perform (c : call) : Redis (option Z) :=
  match c with
  | Append item => id ← append item; mret (Some id)
  | Prepend item => id ← prepend item; mret (Some id)
  | PublishTail item => id ← publish item; mret (Some id)
  | PublishBefore before_id item => publish_before before_id item
  | PublishAfter after_id item => publish_after after_id item
  | Edit id item => _ ← edit id item; mret None
  | Retract id => _ ← retract id; mret None
  end.

(** The calls of a list, one after the other; the replies in call order. *)
Fixpoint perform_all (cs : list call) : Redis (list (option Z)) :=
  match cs with
  | [] => mret []
  | c :: cs' => r ← perform c; rs ← perform_all cs'; mret (r :: rs)
  end.

(** States reached from [s] by calls made one at a time. *)
Definition reachable_from (s s' : store) : Prop :=
  ∃ cs, s' = after (perform_all cs) s.

(** ** Invariants *)

(** I1: the ids in the order list are the keys of the item hash. *)
Definition I1 (s : store) : Prop :=
  list_to_set (order s) =@{gset Z} dom (content s).

(** No id twice in the order list, and none beyond the id counter. *)
Definition tidy (s : store) : Prop :=
  NoDup (order s) ∧ Forall (λ x, x ≤ id_counter s) (order s).

(** ** Two connections: [edit(id, item)] against [retract(id)] *)

Record race := Race {
  db : store;
  editor : phase;
  retractor : phase
}.

(** A commit that writes the watched hash flags every watching connection. *)
Definition flag (ph : phase) : phase :=
  match ph with
  | AtCheck _ => AtCheck true
  | AtExec _ => AtExec true
  | AtWatch => AtWatch
  | Returned => Returned
  end.

Definition notify (a : attempt) (committed : bool) (ph : phase) : phase :=
  if committed && existsb writes_items (pipe a) then flag ph else ph.

Inductive race_step (id : Z) (item : string) : race → race → Prop :=
  | editor_moves σ ph' s' w :
      client_step (edit_attempt id item) (editor σ) (db σ) = Some (ph', s', w) →
      race_step id item σ
        {| db := s'; editor := ph';
           retractor := notify (edit_attempt id item) w (retractor σ) |}
  | retractor_moves σ ph' s' w :
      client_step (retract_attempt id) (retractor σ) (db σ) = Some (ph', s', w) →
      race_step id item σ
        {| db := s'; retractor := ph';
           editor := notify (retract_attempt id) w (editor σ) |}.

Definition race_start (s : store) : race :=
  {| db := s; editor := AtWatch; retractor := AtWatch |}.

Definition race_over (σ : race) : Prop :=
  editor σ = Returned ∧ retractor σ = Returned.

(** Round trips still ahead of a connection, at most. *)
Definition trips_left (ph : phase) : nat :=
  match ph with
  | AtWatch => 3
  | AtCheck false => 2
  | AtExec false => 1
  | AtCheck true => 5
  | AtExec true => 4
  | Returned => 0
  end%nat.

(** What a round trip may still cost a connection: the trips ahead, and
    three more for the one restart a foreign commit can force on it. *)
Definition budget (ph : phase) : nat :=
  match ph with
  | Returned => 0
  | _ => trips_left ph + 3
  end%nat.

Definition race_measure (σ : race) : nat :=
  (budget (editor σ) + budget (retractor σ))%nat.

(** Against the start [s0]: the order list is as it was and the id still has
    an item. *)
Definition kept (id : Z) (s0 s : store) : Prop :=
  get_ids s = get_ids s0 ∧ is_Some (get_item id s).

(** Against the start [s0]: the first occurrence of the id has left the
    order list and the id has no item. *)
Definition dropped (id : Z) (s0 s : store) : Prop :=
  get_ids s = lrem_list 1 id (get_ids s0) ∧ get_item id s = None.

Definition race_inv (id : Z) (s0 : store) (σ : race) : Prop :=
  (∀ y, y ≠ id → get_item y (db σ) = get_item y s0) ∧
  (kept id s0 (db σ) ∨ dropped id s0 (db σ)) ∧
  (editor σ = AtExec false → kept id s0 (db σ)) ∧
  (retractor σ = AtExec false → kept id s0 (db σ)) ∧
  (retractor σ = Returned → dropped id s0 (db σ)).

(** ** Classifying calls *)

(** The calls that draw an id from [feed_id_incr] on entry. *)
Definition allocates (c : call) : bool :=
  match c with
  | Append _ | Prepend _ | PublishTail _
  | PublishBefore _ _ | PublishAfter _ _ => true
  | Edit _ _ | Retract _ => false
  end.

(** The id a call looks up with HEXISTS before it writes anything. *)
Definition target (c : call) : option Z :=
  match c with
  | PublishBefore rel_id _ | PublishAfter rel_id _ => Some rel_id
  | Edit id _ | Retract id => Some id
  | Append _ | Prepend _ | PublishTail _ => None
  end.

(** ** Sample feeds *)

(** An empty feed whose id counter stands at 9. *)
Definition feed_at_9 : store :=
  {| order := []; content := ∅; id_counter := 9; publish_counter := 0;
     outbox := []; handed_out := [] |}.

(** One item, published on an empty feed. *)
Definition one_item_feed : store := after (publish "a") empty_feed.

(** A feed whose order list holds id 5 twice. *)
Definition doubled_feed : store :=
  {| order := [5; 5]; content := {[ 5 := "a" ]}; id_counter := 5;
     publish_counter := 2; outbox := []; handed_out := [] |}.

(** ** Further classification *)

(** Does the call get to run its pipeline?  The calls without a target
    always do; the others when HEXISTS finds the target. *)
Definition commits (c : call) (s : store) : bool :=
  match target c with
  | Some t => hexists feed_items t s
  | None => true
  end.

(** The message a call sends when it commits. *)
Definition message (c : call) (s : store) : channel * string :=
  match c with
  | Append item | Prepend item | PublishTail item
  | PublishBefore _ item | PublishAfter _ item =>
      (feed_publish, id_item (id_counter s + 1) item)
  | Edit id item => (feed_publish, id_item id item)
  | Retract id => (feed_retract, str id)
  end.

(** The item a call carries, if any. *)
Definition payload (c : call) : option string :=
  match c with
  | Append item | Prepend item | PublishTail item
  | PublishBefore _ item | PublishAfter _ item | Edit _ item => Some item
  | Retract _ => None
  end.

(** Book-keeping that holds on a feed grown from the empty feed: the id
    counter counts the draws, every listed id was drawn, and the publish
    counter lies between zero and the number of messages sent. *)
Definition accounted (s : store) : Prop :=
  Z.of_nat (length (handed_out s)) = id_counter s ∧
  (∀ x, x ∈ order s → x ∈ handed_out s) ∧
  0 ≤ publish_counter s ≤ Z.of_nat (length (outbox s)).

(** Does a string hold a null byte? *)
Fixpoint has_nul (s : string) : bool :=
  match s with
  | EmptyString => false
  | String c s' => if Ascii.eqb c Ascii.zero then true else has_nul s'
  end.

(** ** Any number of connections

    Each connection makes one call.  A call that allocates first draws its
    id; [publish], [append] and [prepend] then execute their pipeline,
    which no WATCH guards; the others go round the loop. *)

Inductive client :=
  | Entering (c : call)
  | Pushing (front : bool) (id : Z) (item : string)
  | Inserting (id : Z) (item : string) (rel_id : Z) (m : method) (ph : phase)
  | Editing (id : Z) (item : string) (ph : phase)
  | Retracting (id : Z) (ph : phase)
  | Left (r : option Z).

(** The pipeline of [prepend] ([front]) and of [publish]. *)
Definition push_pipe (front : bool) (id : Z) (item : string) : list queued :=
  [if front then Lpush feed_ids id else Rpush feed_ids id;
   Incr feed_publishes;
   Hset feed_items id item;
   Publish feed_publish (id_item id item)].

(** A round trip of the loop, seen from the call: [r] is what the call
    returns once its pipeline is committed. *)
Definition loop_step (a : attempt) (again : phase → client) (r : option Z)
    (ph : phase) (s : store) : option (client * store * bool) :=
  match client_step a ph s with
  | Some (Returned, s', w) =>
      Some (Left (if w then r else None), s', w && existsb writes_items (pipe a))
  | Some (ph', s', w) =>
      Some (again ph', s', w && existsb writes_items (pipe a))
  | None => None
  end.

(** One move of a connection; the boolean tells whether the move wrote the
    item hash. *)
Definition pool_client_step (c : client) (s : store)
  : option (client * store * bool) :=
  match c with
  | Entering (Append item) | Entering (PublishTail item) =>
      let '(id, s') := incr feed_id_incr s in
      Some (Pushing false id item, s', false)
  | Entering (Prepend item) =>
      let '(id, s') := incr feed_id_incr s in
      Some (Pushing true id item, s', false)
  | Entering (PublishBefore rel_id item) =>
      let '(id, s') := incr feed_id_incr s in
      Some (Inserting id item rel_id BEFORE AtWatch, s', false)
  | Entering (PublishAfter rel_id item) =>
      let '(id, s') := incr feed_id_incr s in
      Some (Inserting id item rel_id AFTER AtWatch, s', false)
  | Entering (Edit id item) => Some (Editing id item AtWatch, s, false)
  | Entering (Retract id) => Some (Retracting id AtWatch, s, false)
  | Pushing front id item =>
      Some (Left (Some id), after (execute (push_pipe front id item)) s,
            existsb writes_items (push_pipe front id item))
  | Inserting id item rel_id m ph =>
      loop_step (insert_attempt id item rel_id m)
        (Inserting id item rel_id m) (Some id) ph s
  | Editing id item ph =>
      loop_step (edit_attempt id item) (Editing id item) None ph s
  | Retracting id ph =>
      loop_step (retract_attempt id) (Retracting id) None ph s
  | Left _ => None
  end.

Definition flag_client (c : client) : client :=
  match c with
  | Inserting id item rel_id m ph => Inserting id item rel_id m (flag ph)
  | Editing id item ph => Editing id item (flag ph)
  | Retracting id ph => Retracting id (flag ph)
  | Entering _ | Pushing _ _ _ | Left _ => c
  end.

Definition touch (wrote : bool) (c : client) : client :=
  if wrote then flag_client c else c.

(** The database and the connections; any connection may move next. *)
Inductive pool_step : store * list client → store * list client → Prop :=
  | pool_moves s l1 c l2 c' s' wrote :
      pool_client_step c s = Some (c', s', wrote) →
      pool_step (s, l1 ++ c :: l2)
                (s', (touch wrote <$> l1) ++ c' :: (touch wrote <$> l2)).

(** The id a connection has drawn and not yet written. *)
Definition held (c : client) : option Z :=
  match c with
  | Pushing _ id _ | Inserting id _ _ _ _ => Some id
  | Entering _ | Editing _ _ _ | Retracting _ _ | Left _ => None
  end.

(** The id a call has returned. *)
Definition result (c : client) : option Z :=
  match c with
  | Left r => r
  | _ => None
  end.

(** A connection about to execute with a clean watch has seen its target,
    and the target is still there. *)
Definition ready (s : store) (c : client) : Prop :=
  match c with
  | Inserting _ _ rel_id _ (AtExec false) => hexists feed_items rel_id s = true
  | Editing id _ (AtExec false) => hexists feed_items id s = true
  | Retracting id (AtExec false) => hexists feed_items id s = true
  | _ => True
  end.

Definition pool_inv (s : store) (cs : list client) : Prop :=
  I1 s ∧
  NoDup (order s ++ omap held cs) ∧
  NoDup (omap held cs ++ omap result cs) ∧
  (∀ x, x ∈ order s ++ omap held cs ++ omap result cs → x ≤ id_counter s) ∧
  Forall (ready s) cs.

(** Round trips a connection may still need when nobody disturbs it. *)
Definition cost (c : client) : nat :=
  match c with
  | Entering _ => 4
  | Pushing _ _ _ => 1
  | Inserting _ _ _ _ ph | Editing _ _ ph | Retracting _ ph => trips_left ph
  | Left _ => 0
  end.

(** One for a connection that has not returned. *)
Definition active (c : client) : nat :=
  match c with
  | Left _ => 0
  | _ => 1
  end.

(** A bound on the round trips the pool can still make: what each
    connection needs, and three more for every restart one connection can
    still force on another. *)
Definition pool_measure (cs : list client) : nat :=
  (sum_list (cost <$> cs) + 3 * sum_list (active <$> cs) ^ 2)%nat.

(** A connection in the loop has not fallen out of it. *)
Definition in_loop (c : client) : Prop :=
  match c with
  | Inserting _ _ _ _ Returned | Editing _ _ Returned
  | Retracting _ Returned => False
  | _ => True
  end.

(** One connection, nobody else: its moves one after the other, until the
    call has returned its value. *)
Fixpoint pool_alone (fuel : nat) (c : client) (s : store)
  : option (option Z * store) :=
  match c, fuel with
  | Left r, _ => Some (r, s)
  | _, O => None
  | _, S n =>
      match pool_client_step c s with
      | Some (c', s', _) => pool_alone n c' s'
      | None => None
      end
  end.

(** ** Key names

    [__init__] names the counter key after the feed; the other key names are
    set by the base class [Feed], which is not in this file. *)
Definition feed_id_incr_name (feed : string) : string :=
  "feed.idincr:" +:+ feed.

(** [get_schemas]; [base] stands for what [Feed.get_schemas(self)]
    returns. *)
Definition get_schemas (feed : string) (base : gset string) : gset string :=
  {[ feed_id_incr_name feed ]} ∪ base.

(** A feed with an item under id 3 that the order list does not hold. *)
Definition unlisted_feed : store :=
  {| order := []; content := {[ 3 := "a" ]}; id_counter := 3;
     publish_counter := 1; outbox := []; handed_out := [] |}.

(** One run of the race on [one_item_feed]: the editor goes first. *)
Definition race_end : race :=
  {| db := after (retract 1) (after (edit 1 "b") one_item_feed);
     editor := Returned; retractor := Returned |}.

(** * Properties *)

(** ** List commands *)

Lemma linsert_list_absent m pivot v l :
  pivot ∉ l → linsert_list m pivot v l = l.
Proof.
  induction l as [|x l IH]; simpl; [done|].
  intros [Hx Hl]%not_elem_of_cons.
  rewrite decide_False by done. by rewrite IH.
Qed.

Lemma linsert_list_split m pivot v l1 l2 :
  pivot ∉ l1 →
  linsert_list m pivot v (l1 ++ pivot :: l2) =
  match m with
  | BEFORE => l1 ++ v :: pivot :: l2
  | AFTER => l1 ++ pivot :: v :: l2
  end.
Proof.
  induction l1 as [|x l1 IH]; simpl.
  - intros _. rewrite decide_True by done. by destruct m.
  - intros [Hx Hl]%not_elem_of_cons.
    rewrite decide_False by done. rewrite IH by done. by destruct m.
Qed.

Lemma linsert_list_perm m pivot v l :
  pivot ∈ l → linsert_list m pivot v l ≡ₚ v :: l.
Proof.
  induction l as [|x l IH]; simpl; [by intros ?%elem_of_nil|].
  intros Hin. destruct (decide (x = pivot)) as [->|Hne].
  - destruct m; [done|]. apply Permutation_swap.
  - apply elem_of_cons in Hin as [?|Hin]; [congruence|].
    rewrite IH by done. apply Permutation_swap.
Qed.

Lemma lrem_first_absent n v l : v ∉ l → lrem_first n v l = l.
Proof.
  revert n. induction l as [|x l IH]; intros [|n]; simpl; try done.
  intros [Hx Hl]%not_elem_of_cons.
  rewrite decide_False by done. by rewrite IH.
Qed.

Lemma lrem_one_split v l1 l2 :
  v ∉ l1 → lrem_list 1 v (l1 ++ v :: l2) = l1 ++ l2.
Proof.
  unfold lrem_list. induction l1 as [|x l1 IH]; simpl.
  - intros _. rewrite decide_True by done. by destruct l2.
  - intros [Hx Hl]%not_elem_of_cons.
    rewrite decide_False by done. by rewrite IH.
Qed.

Lemma lrem_one_perm v l : v ∈ l → l ≡ₚ v :: lrem_list 1 v l.
Proof.
  intros (l1 & l2 & -> & Hl1)%list_elem_of_split_l.
  rewrite lrem_one_split by done. by rewrite Permutation_middle.
Qed.

Lemma lrem_one_sublist v l : lrem_list 1 v l `sublist_of` l.
Proof.
  destruct (decide (v ∈ l)) as [Hin|Hout].
  - apply list_elem_of_split_l in Hin as (l1 & l2 & -> & Hl1).
    rewrite lrem_one_split by done.
    apply sublist_app; [done|]. by apply sublist_cons.
  - unfold lrem_list. by rewrite lrem_first_absent.
Qed.

Lemma lrem_one_others v l :
  filter (λ x, x ≠ v) (lrem_list 1 v l) = filter (λ x, x ≠ v) l.
Proof.
  destruct (decide (v ∈ l)) as [Hin|Hout].
  - apply list_elem_of_split_l in Hin as (l1 & l2 & -> & Hl1).
    rewrite lrem_one_split by done.
    rewrite !filter_app, filter_cons_False; [done|]. by intros [].
  - unfold lrem_list. by rewrite lrem_first_absent.
Qed.

(** ** The methods, unfolded *)

Lemma hexists_true k f s : hexists k f s = true ↔ f ∈ dom (content s).
Proof. unfold hexists. by rewrite bool_decide_eq_true, elem_of_dom. Qed.

Lemma hexists_false k f s : hexists k f s = false ↔ content s !! f = None.
Proof.
  unfold hexists. by rewrite bool_decide_eq_false, eq_None_not_Some.
Qed.

Lemma publish_unfold item s :
  publish item s =
  let id := id_counter s + 1 in
  (id, {| order := order s ++ [id];
          content := <[id := item]> (content s);
          id_counter := id;
          publish_counter := publish_counter s + 1;
          outbox := outbox s ++ [(feed_publish, id_item id item)];
          handed_out := handed_out s ++ [id] |}).
Proof. reflexivity. Qed.

Lemma prepend_unfold item s :
  prepend item s =
  let id := id_counter s + 1 in
  (id, {| order := id :: order s;
          content := <[id := item]> (content s);
          id_counter := id;
          publish_counter := publish_counter s + 1;
          outbox := outbox s ++ [(feed_publish, id_item id item)];
          handed_out := handed_out s ++ [id] |}).
Proof. reflexivity. Qed.

Lemma insert_unfold item rel_id m s :
  __insert item rel_id m s =
  let id := id_counter s + 1 in
  if hexists feed_items rel_id s
  then (Some id, {| order := linsert_list m rel_id id (order s);
                    content := <[id := item]> (content s);
                    id_counter := id;
                    publish_counter := publish_counter s;
                    outbox := outbox s ++ [(feed_publish, id_item id item)];
                    handed_out := handed_out s ++ [id] |})
  else (None, {| order := order s;
                 content := content s;
                 id_counter := id;
                 publish_counter := publish_counter s;
                 outbox := outbox s;
                 handed_out := handed_out s ++ [id] |}).
Proof.
  unfold __insert, mbind, redis_bind, unchallenged; simpl.
  unfold hexists; simpl. by case_bool_decide.
Qed.

Lemma edit_unfold id item s :
  edit id item s =
  if hexists feed_items id s
  then ((), {| order := order s;
               content := <[id := item]> (content s);
               id_counter := id_counter s;
               publish_counter := publish_counter s + 1;
               outbox := outbox s ++ [(feed_publish, id_item id item)];
               handed_out := handed_out s |})
  else ((), s).
Proof.
  unfold edit, mbind, redis_bind, unchallenged; simpl.
  unfold hexists; simpl. by case_bool_decide.
Qed.

Lemma retract_unfold id s :
  retract id s =
  if hexists feed_items id s
  then ((), {| order := lrem_list 1 id (order s);
               content := delete id (content s);
               id_counter := id_counter s;
               publish_counter := publish_counter s;
               outbox := outbox s ++ [(feed_retract, str id)];
               handed_out := handed_out s |})
  else ((), s).
Proof.
  unfold retract, mbind, redis_bind, unchallenged; simpl.
  unfold hexists; simpl. by case_bool_decide.
Qed.

(** The loop, run by a connection with the server to itself, returns after
    at most three round trips, in the state [unchallenged] gives. *)
Lemma run_alone_unchallenged a s fuel :
  (4 ≤ fuel)%nat →
  run_alone fuel a AtWatch s = Some (after (unchallenged a) s).
Proof.
  intros Hfuel.
  do 4 (destruct fuel as [|fuel]; [lia|]).
  unfold after, unchallenged. simpl. by destruct (guard a s).
Qed.

(** ** I1: order list and item hash hold the same ids *)

Ltac unfold_call :=
  unfold after, value, perform, append, publish_before, publish_after,
    mbind, redis_bind, mret, redis_ret;
  rewrite ?publish_unfold, ?prepend_unfold, ?insert_unfold, ?edit_unfold,
    ?retract_unfold;
  cbn [fst snd].

Lemma I1_elem s x : I1 s → x ∈ order s ↔ x ∈ dom (content s).
Proof. unfold I1. intros <-. by rewrite elem_of_list_to_set. Qed.

Lemma grow_I1 s s' id item :
  I1 s →
  order s' ≡ₚ id :: order s →
  content s' = <[id := item]> (content s) →
  I1 s'.
Proof.
  unfold I1. intros HI Hl ->.
  rewrite (list_to_set_perm_L _ _ Hl), dom_insert_L, <- HI.
  by rewrite list_to_set_cons.
Qed.

Lemma shrink_I1 s s' id :
  I1 s → NoDup (order s) → id ∈ dom (content s) →
  order s' = lrem_list 1 id (order s) →
  content s' = delete id (content s) →
  I1 s'.
Proof.
  intros HI Hnd Hin Ho Hc.
  assert (id ∈ order s) as Hord by by apply I1_elem.
  pose proof (lrem_one_perm _ _ Hord) as Hperm.
  rewrite Hperm in Hnd. apply NoDup_cons in Hnd as [Hfresh _].
  unfold I1 in *. rewrite Ho, Hc, dom_delete_L, <- HI.
  rewrite (list_to_set_perm_L _ _ Hperm), list_to_set_cons.
  apply set_eq. intros x.
  rewrite elem_of_difference, elem_of_union, elem_of_singleton,
    !elem_of_list_to_set.
  split; [|tauto]. intros Hx. split; [tauto|]. by intros ->.
Qed.

Lemma perform_I1 c s :
  I1 s → NoDup (order s) → I1 (after (perform c) s).
Proof.
  intros HI Hnd. destruct c; unfold_call; cbn zeta.
  - apply (grow_I1 s _ (id_counter s + 1) item); [done|cbn|done].
    by rewrite <- Permutation_cons_append.
  - by apply (grow_I1 s _ (id_counter s + 1) item).
  - apply (grow_I1 s _ (id_counter s + 1) item); [done|cbn|done].
    by rewrite <- Permutation_cons_append.
  - destruct (hexists _ _ _) eqn:Hex; [|done].
    apply hexists_true in Hex.
    apply (grow_I1 s _ (id_counter s + 1) item); [done|cbn|done].
    apply linsert_list_perm. by apply I1_elem.
  - destruct (hexists _ _ _) eqn:Hex; [|done].
    apply hexists_true in Hex.
    apply (grow_I1 s _ (id_counter s + 1) item); [done|cbn|done].
    apply linsert_list_perm. by apply I1_elem.
  - destruct (hexists _ _ _) eqn:Hex; [|done].
    apply hexists_true in Hex. unfold I1 in *. cbn.
    rewrite dom_insert_L, <- HI. rewrite <- HI in Hex.
    apply set_eq. intros x. rewrite elem_of_union, elem_of_singleton.
    split; [tauto|]. by intros [->|?].
  - destruct (hexists _ _ _) eqn:Hex; [|done].
    apply hexists_true in Hex. by eapply shrink_I1.
Qed.

Lemma perform_tidy c s : tidy s → tidy (after (perform c) s).
Proof.
  intros [Hnd Hle].
  assert (id_counter s + 1 ∉ order s) as Hfresh.
  { intros Hin. rewrite Forall_forall in Hle. apply Hle in Hin. lia. }
  assert (Forall (λ x, x ≤ id_counter s + 1) (order s)) as Hle'.
  { eapply Forall_impl; [done|]. cbn. lia. }
  assert (∀ l, l ≡ₚ (id_counter s + 1) :: order s →
               NoDup l ∧ Forall (λ x, x ≤ id_counter s + 1) l) as Hnew.
  { intros l ->. split; [by apply NoDup_cons|].
    apply Forall_cons. split; [lia|done]. }
  assert (∀ m rel,
    NoDup (linsert_list m rel (id_counter s + 1) (order s)) ∧
    Forall (λ x, x ≤ id_counter s + 1)
      (linsert_list m rel (id_counter s + 1) (order s))) as Hins.
  { intros m rel. destruct (decide (rel ∈ order s)).
    - by apply Hnew, linsert_list_perm.
    - by rewrite linsert_list_absent. }
  destruct c; unfold_call; cbn zeta; unfold tidy; cbn.
  - apply Hnew. by rewrite <- Permutation_cons_append.
  - by apply Hnew.
  - apply Hnew. by rewrite <- Permutation_cons_append.
  - destruct (hexists _ _ _); cbn; [apply Hins|done].
  - destruct (hexists _ _ _); cbn; [apply Hins|done].
  - by destruct (hexists _ _ _).
  - destruct (hexists _ _ _); cbn; [|done].
    pose proof (lrem_one_sublist id (order s)) as Hsub. split.
    + by eapply sublist_NoDup.
    + rewrite Forall_forall in *. intros x Hx. apply Hle.
      by eapply elem_of_sublist.
Qed.

Lemma perform_all_cons c cs s :
  after (perform_all (c :: cs)) s = after (perform_all cs) (after (perform c) s).
Proof.
  unfold after. cbn. unfold mbind, redis_bind.
  destruct (perform c s) as [r s1]. cbn.
  by destruct (perform_all cs s1).
Qed.

Lemma perform_all_I1_tidy cs s :
  I1 s → tidy s →
  I1 (after (perform_all cs) s) ∧ tidy (after (perform_all cs) s).
Proof.
  revert s. induction cs as [|c cs IH]; intros s HI Ht; [done|].
  rewrite perform_all_cons. apply IH.
  - apply perform_I1; [done|]. apply Ht.
  - by apply perform_tidy.
Qed.

(** On a feed grown from nothing by the feed's own methods, I1 holds after
    every call. *)
Lemma I1_from_empty_feed s :
  reachable_from empty_feed s → I1 s ∧ tidy s.
Proof.
  intros [cs ->]. apply perform_all_I1_tidy.
  - unfold I1. cbn. by rewrite dom_empty_L.
  - split; cbn; constructor.
Qed.

(** C1, as the code has it: a mutation started in a state where the order
    list and the item hash hold the same ids, and where the order list holds
    no id twice, ends in a state where they hold the same ids again; and
    every state a feed reaches from the empty feed by its own methods is
    such a state. *)
Theorem mutation_reestablishes_I1 (c : call) (s : store) :
  (I1 s → NoDup (get_ids s) → I1 (after (perform c) s)) ∧
  (reachable_from empty_feed s → I1 s ∧ NoDup (get_ids s)).
Proof.
  split; [apply perform_I1|].
  intros [HI [Hnd _]]%I1_from_empty_feed. by split.
Qed.

Lemma mutation_reestablishes_I1_witness :
  (I1 one_item_feed ∧ NoDup (get_ids one_item_feed) ∧
   I1 (after (perform (Retract 1)) one_item_feed)) ∧
  (reachable_from empty_feed one_item_feed ∧ I1 one_item_feed).
Proof.
  assert (I1 one_item_feed) as HI by (vm_compute; reflexivity).
  assert (NoDup (get_ids one_item_feed)) as Hnd by apply NoDup_singleton.
  assert (reachable_from empty_feed one_item_feed) as Hreach
    by (exists [PublishTail "a"]; reflexivity).
  split.
  - split; [exact HI|]. split; [exact Hnd|].
    exact (proj1 (mutation_reestablishes_I1 (Retract 1) one_item_feed) HI Hnd).
  - split; [exact Hreach|].
    exact (proj1 (proj2 (mutation_reestablishes_I1 (Retract 1) one_item_feed)
                    Hreach)).
Defined.

(** C1 as stated fails: equality of the two id sets alone is not kept by
    [retract], which drops one occurrence from the order list and the whole
    entry from the hash. *)
Lemma I1_alone_not_reestablished :
  I1 doubled_feed ∧
  get_ids (after (perform (Retract 5)) doubled_feed) = [5] ∧
  get_item 5 (after (perform (Retract 5)) doubled_feed) = None ∧
  ¬ I1 (after (perform (Retract 5)) doubled_feed).
Proof.
  split; [vm_compute; reflexivity|].
  split; [vm_compute; reflexivity|].
  split; [vm_compute; reflexivity|].
  unfold I1. vm_compute. discriminate.
Qed.

(** ** I2: the ids drawn from [feed_id_incr] *)

Lemma perform_all_nil s : perform_all [] s = ([], s).
Proof. reflexivity. Qed.

Lemma value_perform_all_cons c cs s :
  value (perform_all (c :: cs)) s =
  value (perform c) s :: value (perform_all cs) (after (perform c) s).
Proof.
  unfold value, after. cbn. unfold mbind, redis_bind.
  destruct (perform c s) as [r s1]. cbn.
  by destruct (perform_all cs s1).
Qed.

(** One call: a call that allocates draws the successor of the counter, the
    others draw nothing; the counter is what it was, plus the draw. *)
Lemma perform_draw c s :
  let s' := after (perform c) s in
  if allocates c
  then id_counter s' = id_counter s + 1 ∧
       handed_out s' = handed_out s ++ [id_counter s + 1]
  else id_counter s' = id_counter s ∧ handed_out s' = handed_out s.
Proof.
  destruct c; unfold_call; cbn; try done;
    by destruct (hexists _ _ _).
Qed.

(** A call that returns an id returns the one it drew. *)
Lemma perform_value c s id :
  value (perform c) s = Some id → allocates c = true ∧ id = id_counter s + 1.
Proof.
  destruct c; unfold_call; cbn; try (by intros [= <-]);
    destruct (hexists _ _ _); cbn; try done; by intros [= <-].
Qed.

Lemma perform_all_draws cs s :
  let s' := after (perform_all cs) s in
  ∃ new,
    handed_out s' = handed_out s ++ new ∧
    StronglySorted Z.lt new ∧
    Forall (λ x, id_counter s < x ≤ id_counter s') new ∧
    id_counter s ≤ id_counter s' ∧
    length new = length (filter (λ c, allocates c = true) cs).
Proof.
  cbn zeta. revert s. induction cs as [|c cs IH]; intros s.
  - exists []. cbn. rewrite app_nil_r. repeat split; (constructor || lia).
  - rewrite perform_all_cons.
    destruct (IH (after (perform c) s)) as (new & Hlog & Hsort & Hall & Hle & Hlen).
    pose proof (perform_draw c s) as Hc. cbn zeta in Hc.
    destruct (allocates c) eqn:Halloc.
    + destruct Hc as [Hctr Hout].
      exists ((id_counter s + 1) :: new).
      rewrite Hlog, Hout, <- app_assoc. split; [done|].
      rewrite Hctr in Hall, Hle. repeat split.
      * constructor; [done|]. eapply Forall_impl; [done|]. cbn. lia.
      * constructor; [lia|]. eapply Forall_impl; [done|]. cbn. lia.
      * lia.
      * rewrite filter_cons_True by done. cbn. by rewrite Hlen.
    + destruct Hc as [Hctr Hout].
      exists new. rewrite Hlog, Hout. split; [done|].
      rewrite Hctr in Hall, Hle. repeat split; try done.
      rewrite filter_cons_False; [done|]. by rewrite Halloc.
Qed.

(** Ids returned by the calls of a run were drawn in that run. *)
Lemma perform_all_returns cs s id :
  Some id ∈ value (perform_all cs) s →
  id_counter s < id ≤ id_counter (after (perform_all cs) s).
Proof.
  revert s. induction cs as [|c cs IH]; intros s.
  - cbn. by intros ?%elem_of_nil.
  - rewrite value_perform_all_cons, perform_all_cons.
    pose proof (perform_draw c s) as Hc. cbn zeta in Hc.
    destruct (perform_all_draws cs (after (perform c) s))
      as (_ & _ & _ & _ & Hle & _).
    intros [Hhd|Htl]%elem_of_cons.
    + symmetry in Hhd. apply perform_value in Hhd as [Halloc ->].
      rewrite Halloc in Hc. lia.
    + apply IH in Htl. destruct (allocates c); lia.
Qed.

(** On a feed grown from nothing, the whole history of draws is strictly
    increasing. *)
Lemma handed_out_sorted_from_empty_feed s :
  reachable_from empty_feed s → StronglySorted Z.lt (handed_out s).
Proof.
  intros [cs ->].
  destruct (perform_all_draws cs empty_feed) as (new & Hlog & Hsort & _).
  by rewrite Hlog.
Qed.

(** C2: over any sequence of calls on a feed, the ids drawn from the
    allocator, in the order they are drawn, are strictly increasing and lie
    above the counter the run started from; every call that allocates, an
    insert whose anchor is missing included, takes one place in that
    sequence, so its id is not drawn again. *)
Theorem allocator_strictly_increasing (cs : list call) (s : store) :
  ∃ new,
    handed_out (after (perform_all cs) s) = handed_out s ++ new ∧
    StronglySorted Z.lt new ∧
    NoDup new ∧
    Forall (λ x, id_counter s < x) new ∧
    length new = length (filter (λ c, allocates c = true) cs).
Proof.
  destruct (perform_all_draws cs s) as (new & Hlog & Hsort & Hall & _ & Hlen).
  exists new. repeat split; try done.
  - clear -Hsort. induction Hsort as [|x l _ IH Hx]; constructor; [|done].
    intros Hin. rewrite Forall_forall in Hx. apply Hx in Hin. lia.
  - eapply Forall_impl; [done|]. cbn. lia.
Qed.

(** ** Where an id lands in the order list *)

Lemma insert_lands item anchor m s l1 l2 :
  hexists feed_items anchor s = true →
  get_ids s = l1 ++ anchor :: l2 →
  anchor ∉ l1 →
  value (__insert item anchor m) s = Some (id_counter s + 1) ∧
  get_ids (after (__insert item anchor m) s) =
  match m with
  | BEFORE => l1 ++ (id_counter s + 1) :: anchor :: l2
  | AFTER => l1 ++ anchor :: (id_counter s + 1) :: l2
  end.
Proof.
  unfold get_ids, lrange_all. intros Hex Hsplit Hl1.
  unfold value, after. rewrite insert_unfold. cbn zeta. rewrite Hex. cbn.
  split; [done|]. rewrite Hsplit. by apply linsert_list_split.
Qed.

(** C4: on an empty feed whose first [publish] returns 10, publishing "a"
    and "b" and then "c" before 11 returns 10, 11 and 12 and leaves the ids
    in the order 10, 12, 11; in general [publish_before] puts the new id
    right before the first occurrence of the anchor in the order list, and
    [publish_after] right after it. *)
Theorem relative_insert_order :
  (∀ s, get_ids s = [] → get_items s = ∅ → value (publish "a") s = 10 →
     value (perform_all [PublishTail "a"; PublishTail "b";
                         PublishBefore 11 "c"]) s
       = [Some 10; Some 11; Some 12] ∧
     get_ids (after (perform_all [PublishTail "a"; PublishTail "b";
                                  PublishBefore 11 "c"]) s)
       = [10; 12; 11]) ∧
  (∀ s anchor item l1 l2,
     hexists feed_items anchor s = true →
     get_ids s = l1 ++ anchor :: l2 →
     anchor ∉ l1 →
     (value (publish_before anchor item) s = Some (id_counter s + 1) ∧
      get_ids (after (publish_before anchor item) s)
        = l1 ++ (id_counter s + 1) :: anchor :: l2) ∧
     (value (publish_after anchor item) s = Some (id_counter s + 1) ∧
      get_ids (after (publish_after anchor item) s)
        = l1 ++ anchor :: (id_counter s + 1) :: l2)).
Proof.
  split.
  - intros [o c n p out h]. unfold get_ids, get_items, lrange_all, hgetall.
    cbn [order content]. intros -> -> Hid.
    assert (n = 9) as -> by (revert Hid; unfold value; rewrite publish_unfold; cbn; lia).
    split; vm_compute; reflexivity.
  - intros s anchor item l1 l2 Hex Hsplit Hl1. split.
    + apply (insert_lands item anchor BEFORE s l1 l2 Hex Hsplit Hl1).
    + apply (insert_lands item anchor AFTER s l1 l2 Hex Hsplit Hl1).
Qed.

Lemma relative_insert_order_witness :
  (get_ids feed_at_9 = [] ∧ get_items feed_at_9 = ∅ ∧
   value (publish "a") feed_at_9 = 10 ∧
   get_ids (after (perform_all [PublishTail "a"; PublishTail "b";
                                PublishBefore 11 "c"]) feed_at_9)
     = [10; 12; 11]) ∧
  (hexists feed_items 1 one_item_feed = true ∧
   get_ids one_item_feed = [] ++ 1 :: [] ∧
   (1 ∉ ([] : list Z)) ∧
   get_ids (after (publish_after 1 "b") one_item_feed) = [] ++ 1 :: 2 :: []).
Proof.
  split.
  - do 3 (split; [reflexivity|]).
    apply (proj1 relative_insert_order feed_at_9); reflexivity.
  - split; [vm_compute; reflexivity|]. split; [reflexivity|].
    split; [apply not_elem_of_nil|].
    apply (proj2 relative_insert_order one_item_feed 1 "b" [] []).
    + vm_compute. reflexivity.
    + reflexivity.
    + apply not_elem_of_nil.
Defined.

(** C8 as stated fails on a feed that already holds an id: the two prepended
    ids come first, the earlier ids follow. *)
Lemma prepend_twice_on_one_item_feed :
  value (prepend "x") one_item_feed = 2 ∧
  value (prepend "y") (after (prepend "x") one_item_feed) = 3 ∧
  get_ids (after (prepend "y") (after (prepend "x") one_item_feed)) = [3; 2; 1] ∧
  get_ids (after (prepend "y") (after (prepend "x") one_item_feed)) ≠ [3; 2].
Proof.
  split; [reflexivity|]. split; [reflexivity|]. split; [reflexivity|].
  vm_compute. discriminate.
Qed.

(** C8, as the code has it: after [prepend "x"] returning [a] and
    [prepend "y"] returning [b], the ids read [b], [a], then the ids the
    feed held before (so exactly [b; a] on an empty feed); [prepend] puts
    the new id at the head of the order list, [publish] and [append] at its
    tail. *)
Theorem prepend_is_lifo (s : store) (x y item : string) :
  let a := value (prepend x) s in
  let s1 := after (prepend x) s in
  let b := value (prepend y) s1 in
  let s2 := after (prepend y) s1 in
  get_ids s2 = [b; a] ++ get_ids s ∧
  get_ids s1 = a :: get_ids s ∧
  get_ids (after (publish item) s) = get_ids s ++ [value (publish item) s] ∧
  get_ids (after (append item) s) = get_ids s ++ [value (append item) s].
Proof. repeat split. Qed.

(** ** Retracting *)

(** C7: where id [X] is in the item hash, [retract X] takes the first
    occurrence of [X] out of the order list and leaves the other ids in the
    order they had, deletes [X] from the item hash, and [get_item X] then
    finds nothing; an order list that held [X] once holds it no more.  After
    the 10, 12, 11 scenario, [retract 12] leaves the ids 10, 11 and no item
    under 12. *)
Theorem retract_removes (s : store) (X : Z) :
  hexists feed_items X s = true →
  let s' := after (retract X) s in
  get_item X s' = None ∧
  get_items s' = delete X (get_items s) ∧
  (∀ l1 l2, get_ids s = l1 ++ X :: l2 → X ∉ l1 → get_ids s' = l1 ++ l2) ∧
  filter (λ y, y ≠ X) (get_ids s') = filter (λ y, y ≠ X) (get_ids s) ∧
  (NoDup (get_ids s) → X ∉ get_ids s') ∧
  outbox s' = outbox s ++ [(feed_retract, str X)] ∧
  (∀ s0, get_ids s0 = [] → get_items s0 = ∅ → value (publish "a") s0 = 10 →
     let s3 := after (perform_all [PublishTail "a"; PublishTail "b";
                                   PublishBefore 11 "c"; Retract 12]) s0 in
     get_ids s3 = [10; 11] ∧ get_item 12 s3 = None).
Proof.
  intros Hex. cbn zeta. unfold after, get_item, get_items, get_ids, hget,
    hgetall, lrange_all.
  rewrite retract_unfold, Hex. cbn [fst snd order content outbox].
  split; [apply lookup_delete_eq|]. split; [done|].
  split; [intros l1 l2 -> Hl1; by apply lrem_one_split|].
  split; [apply lrem_one_others|].
  split.
  - intros Hnd Hin.
    destruct (decide (X ∈ order s)) as [Hord|Hord].
    + pose proof (lrem_one_perm _ _ Hord) as Hperm.
      rewrite Hperm in Hnd. by apply NoDup_cons in Hnd as [Hfresh _].
    + apply Hord. eapply elem_of_sublist; [done|apply lrem_one_sublist].
  - split; [done|].
    intros [o c n p out h]. cbn [order content]. intros -> -> Hid.
    assert (n = 9) as ->
      by (revert Hid; unfold value; rewrite publish_unfold; cbn; lia).
    split; vm_compute; reflexivity.
Qed.

Lemma retract_removes_witness :
  hexists feed_items 1 one_item_feed = true ∧
  get_item 1 (after (retract 1) one_item_feed) = None ∧
  get_ids (after (perform_all [PublishTail "a"; PublishTail "b";
                               PublishBefore 11 "c"; Retract 12]) feed_at_9)
    = [10; 11].
Proof.
  assert (hexists feed_items 1 one_item_feed = true) as Hex
    by (vm_compute; reflexivity).
  split; [exact Hex|].
  destruct (retract_removes one_item_feed 1 Hex)
    as (Hgone & _ & _ & _ & _ & _ & Hscenario).
  split; [exact Hgone|].
  apply (Hscenario feed_at_9); reflexivity.
Defined.

(** ** Calls whose target is missing *)

Lemma insert_missing item rel_id m s :
  get_item rel_id s = None →
  __insert item rel_id m s =
  (None, {| order := order s; content := content s;
            id_counter := id_counter s + 1;
            publish_counter := publish_counter s; outbox := outbox s;
            handed_out := handed_out s ++ [id_counter s + 1] |}).
Proof.
  intros Hmiss%(hexists_false feed_items). by rewrite insert_unfold, Hmiss.
Qed.

Lemma perform_keeps_gap d c s :
  d ≤ id_counter s → content s !! d = None →
  d ≤ id_counter (after (perform c) s) ∧
  content (after (perform c) s) !! d = None.
Proof.
  intros Hd Hgap.
  assert (∀ item, <[id_counter s + 1 := item]> (content s) !! d = None) as Hnew.
  { intros item. rewrite lookup_insert_ne by lia. done. }
  destruct c; unfold_call; cbn zeta; cbn;
    try (split; [lia|apply Hnew]).
  - destruct (hexists _ _ _); cbn; (split; [lia|done]).
  - destruct (hexists _ _ _); cbn; (split; [lia|done]).
  - destruct (hexists _ _ _) eqn:Hex; cbn; [|done].
    split; [done|]. rewrite lookup_insert_ne; [done|].
    intros ->. apply hexists_true, elem_of_dom in Hex as [? Hex]. congruence.
  - destruct (hexists _ _ _); cbn; [|done].
    split; [done|]. apply lookup_delete_None. by right.
Qed.

Lemma perform_all_keeps_gap d cs s :
  d ≤ id_counter s → content s !! d = None →
  content (after (perform_all cs) s) !! d = None.
Proof.
  revert s. induction cs as [|c cs IH]; intros s Hd Hgap; [done|].
  rewrite perform_all_cons.
  destruct (perform_keeps_gap d c s Hd Hgap) as [Hd' Hgap']. by apply IH.
Qed.

(** C5: [publish_before X item] with no item under [X] returns [None] and
    writes neither list, hash, publish counter nor channel, yet draws the id
    [d] after the counter.  Every id a later call returns, and every id a
    later call draws, is strictly greater than [d]; and where no item was
    stored under [d] before, none ever is. *)
Theorem discarded_id_leaves_gap (s : store) (X : Z) (item : string)
    (cs : list call) :
  get_item X s = None →
  let d := id_counter s + 1 in
  let s1 := after (publish_before X item) s in
  value (publish_before X item) s = None ∧
  get_ids s1 = get_ids s ∧ get_items s1 = get_items s ∧
  publish_counter s1 = publish_counter s ∧ outbox s1 = outbox s ∧
  handed_out s1 = handed_out s ++ [d] ∧
  (∀ id, Some id ∈ value (perform_all cs) s1 → d < id) ∧
  (∃ new, handed_out (after (perform_all cs) s1) = handed_out s ++ d :: new ∧
          Forall (λ id, d < id) new) ∧
  (get_item d s = None → get_item d (after (perform_all cs) s1) = None).
Proof.
  intros Hmiss. cbn zeta.
  unfold value, after, publish_before. rewrite (insert_missing _ _ _ _ Hmiss).
  cbn [fst snd]. do 6 (split; [done|]).
  set (s1 := {| order := order s; content := content s;
                id_counter := id_counter s + 1;
                publish_counter := publish_counter s; outbox := outbox s;
                handed_out := handed_out s ++ [id_counter s + 1] |}).
  split; [|split].
  - intros id Hid. by apply perform_all_returns in Hid as [Hlt _].
  - destruct (perform_all_draws cs s1) as (new & Hlog & _ & Hall & _).
    exists new. split.
    + fold (after (perform_all cs) s1). rewrite Hlog. cbn.
      by rewrite <- app_assoc.
    + eapply Forall_impl; [done|]. cbn. lia.
  - intros Hgap. apply (perform_all_keeps_gap (id_counter s + 1) cs s1); cbn.
    + lia.
    + done.
Qed.

Lemma discarded_id_leaves_gap_witness :
  get_item 7 one_item_feed = None ∧
  value (publish_before 7 "b") one_item_feed = None ∧
  (∀ id, Some id ∈ value (perform_all [PublishTail "c"])
                       (after (publish_before 7 "b") one_item_feed) →
         1 + 1 < id).
Proof.
  split; [reflexivity|].
  destruct (discarded_id_leaves_gap one_item_feed 7 "b" [PublishTail "c"]
              eq_refl) as (Hnone & _ & _ & _ & _ & _ & Hlater & _).
  split; [exact Hnone | exact Hlater].
Defined.

(** C6: a call of [edit], [retract], [publish_before] or [publish_after]
    whose target or anchor is not in the item hash returns [None] and leaves
    the order list, the item hash, the publish counter and the channels as
    they were; [edit] and [retract] leave the whole database as it was; so
    does [edit 999 "z"] where there is no item 999. *)
Theorem missing_target_is_noop (c : call) (s : store) (t : Z) :
  target c = Some t →
  get_item t s = None →
  let s' := after (perform c) s in
  value (perform c) s = None ∧
  get_ids s' = get_ids s ∧
  get_items s' = get_items s ∧
  publish_counter s' = publish_counter s ∧
  outbox s' = outbox s ∧
  (allocates c = false → s' = s) ∧
  (get_item 999 s = None → after (edit 999 "z") s = s).
Proof.
  intros Htarget Hmiss. cbn zeta.
  split; [|split; [|split; [|split; [|split; [|split]]]]];
    try (destruct c; try discriminate; injection Htarget as ->;
         apply (hexists_false feed_items) in Hmiss;
         unfold_call; rewrite Hmiss; done).
  intros H999%(hexists_false feed_items).
  unfold after. by rewrite edit_unfold, H999.
Qed.

Lemma missing_target_is_noop_witness :
  target (Edit 999 "z") = Some 999 ∧
  get_item 999 one_item_feed = None ∧
  after (perform (Edit 999 "z")) one_item_feed = one_item_feed ∧
  after (edit 999 "z") one_item_feed = one_item_feed.
Proof.
  split; [reflexivity|]. split; [reflexivity|].
  destruct (missing_target_is_noop (Edit 999 "z") one_item_feed 999
              eq_refl eq_refl) as (_ & _ & _ & _ & _ & Hsame & H999).
  split; [exact (Hsame eq_refl) | exact (H999 eq_refl)].
Defined.

(** ** Messages and the publish counter *)

Example id_item_12_c :
  id_item 12 "c" = String "1" (String "2" (String Ascii.zero "c")).
Proof. reflexivity. Qed.

(** C9: the message a successful [edit id item] sends and the message a
    [publish item] that returns [id] sends are the same string on the same
    channel: the decimal id, a null byte, the item. *)
Theorem edit_message_is_publish_message (id : Z) (item : string)
    (s s' : store) :
  hexists feed_items id s = true →
  value (publish item) s' = id →
  ∃ msg,
    msg = str id +:+ String Ascii.zero item ∧
    outbox (after (edit id item) s) = outbox s ++ [(feed_publish, msg)] ∧
    outbox (after (publish item) s') = outbox s' ++ [(feed_publish, msg)].
Proof.
  intros Hex Hid. exists (id_item id item). split; [done|].
  unfold after, value in *. rewrite edit_unfold, Hex.
  rewrite publish_unfold in *. cbn in *. by rewrite Hid.
Qed.

Lemma edit_message_is_publish_message_witness :
  hexists feed_items 1 one_item_feed = true ∧
  value (publish "b") empty_feed = 1 ∧
  ∃ msg,
    msg = str 1 +:+ String Ascii.zero "b" ∧
    outbox (after (edit 1 "b") one_item_feed)
      = outbox one_item_feed ++ [(feed_publish, msg)] ∧
    outbox (after (publish "b") empty_feed)
      = outbox empty_feed ++ [(feed_publish, msg)].
Proof.
  assert (hexists feed_items 1 one_item_feed = true) as Hex
    by (vm_compute; reflexivity).
  split; [exact Hex|]. split; [reflexivity|].
  exact (edit_message_is_publish_message 1 "b" one_item_feed empty_feed
           Hex eq_refl).
Defined.

Lemma linsert_list_elem m pivot v l :
  pivot ∈ l → v ∈ linsert_list m pivot v l.
Proof.
  intros Hin. rewrite (linsert_list_perm m pivot v l Hin).
  apply elem_of_cons. by left.
Qed.

(** C10: [publish_before] and [publish_after] with an anchor that is in the
    item hash return the new id, send a publish message, store the item, put
    the id in the order list next to the anchor found there, and leave the
    publish counter as it was; [retract] leaves it too; [publish],
    [append], [prepend] and a successful [edit] add one to it. *)
Theorem insert_leaves_publish_counter (s : store) (anchor : Z)
    (item : string) (m : method) :
  hexists feed_items anchor s = true →
  let op := match m with
            | BEFORE => publish_before anchor item
            | AFTER => publish_after anchor item
            end in
  let id := id_counter s + 1 in
  value op s = Some id ∧
  publish_counter (after op s) = publish_counter s ∧
  outbox (after op s) = outbox s ++ [(feed_publish, id_item id item)] ∧
  get_item id (after op s) = Some item ∧
  (anchor ∈ get_ids s → id ∈ get_ids (after op s)) ∧
  publish_counter (after (publish item) s) = publish_counter s + 1 ∧
  publish_counter (after (append item) s) = publish_counter s + 1 ∧
  publish_counter (after (prepend item) s) = publish_counter s + 1 ∧
  publish_counter (after (edit anchor item) s) = publish_counter s + 1 ∧
  (∀ id', publish_counter (after (retract id') s) = publish_counter s).
Proof.
  intros Hex. cbn zeta.
  assert (∀ m', __insert item anchor m' s =
    (Some (id_counter s + 1),
     {| order := linsert_list m' anchor (id_counter s + 1) (order s);
        content := <[id_counter s + 1 := item]> (content s);
        id_counter := id_counter s + 1;
        publish_counter := publish_counter s;
        outbox := outbox s ++ [(feed_publish, id_item (id_counter s + 1) item)];
        handed_out := handed_out s ++ [id_counter s + 1] |})) as Hins.
  { intros m'. by rewrite insert_unfold, Hex. }
  split; [by destruct m; unfold value, publish_before, publish_after; rewrite Hins|].
  split; [by destruct m; unfold after, publish_before, publish_after; rewrite Hins|].
  split; [by destruct m; unfold after, publish_before, publish_after; rewrite Hins|].
  split.
  { destruct m; unfold after, publish_before, publish_after, get_item, hget;
      rewrite Hins; cbn; apply lookup_insert_eq. }
  split.
  { intros Hin. destruct m; unfold after, publish_before, publish_after,
      get_ids, lrange_all; rewrite Hins; cbn; by apply linsert_list_elem. }
  do 3 (split; [reflexivity|]).
  split; [unfold after; by rewrite edit_unfold, Hex|].
  intros id'. unfold after. rewrite retract_unfold.
  by destruct (hexists feed_items id' s).
Qed.

Lemma insert_leaves_publish_counter_witness :
  hexists feed_items 1 one_item_feed = true ∧
  publish_counter (after (publish_before 1 "b") one_item_feed)
    = publish_counter one_item_feed.
Proof.
  assert (hexists feed_items 1 one_item_feed = true) as Hex
    by (vm_compute; reflexivity).
  split; [exact Hex|].
  destruct (insert_leaves_publish_counter one_item_feed 1 "b" BEFORE Hex)
    as (_ & Hsame & _).
  exact Hsame.
Defined.

(** ** [edit] racing [retract] on one id *)

Lemma kept_not_dropped id s0 s : kept id s0 s → dropped id s0 s → False.
Proof. intros [_ [v Hv]] [_ Hnone]. congruence. Qed.

Lemma edit_commit_kept id item s0 s :
  kept id s0 s → kept id s0 (after (execute (pipe (edit_attempt id item))) s).
Proof.
  intros (Hord & _). unfold kept, get_item, hget, get_ids, lrange_all in *.
  cbn. split; [done|]. rewrite lookup_insert_eq. by eexists.
Qed.

Lemma edit_commit_others id item s y :
  y ≠ id →
  get_item y (after (execute (pipe (edit_attempt id item))) s) = get_item y s.
Proof.
  intros Hy. unfold get_item, hget. cbn. by rewrite lookup_insert_ne.
Qed.

Lemma retract_commit_dropped id s0 s :
  kept id s0 s → dropped id s0 (after (execute (pipe (retract_attempt id))) s).
Proof.
  unfold kept, dropped, get_item, hget, get_ids, lrange_all.
  intros (Hord & _). cbn. split; [by rewrite Hord|apply lookup_delete_eq].
Qed.

Lemma retract_commit_others id s y :
  y ≠ id →
  get_item y (after (execute (pipe (retract_attempt id))) s) = get_item y s.
Proof.
  intros Hy. unfold get_item, hget. cbn. by rewrite lookup_delete_ne.
Qed.

Lemma edit_writes_items id item :
  existsb writes_items (pipe (edit_attempt id item)) = true.
Proof. reflexivity. Qed.

Lemma retract_writes_items id :
  existsb writes_items (pipe (retract_attempt id)) = true.
Proof. reflexivity. Qed.

Lemma guard_decides id s0 s b :
  kept id s0 s ∨ dropped id s0 s →
  hexists feed_items id s = b →
  if b then kept id s0 s else dropped id s0 s.
Proof.
  intros [Hk|Hd] <-.
  - destruct Hk as (? & Hsome). unfold hexists, get_item, hget in *.
    by rewrite bool_decide_eq_true_2.
  - destruct Hd as (? & Hnone). unfold hexists, get_item, hget in *.
    rewrite bool_decide_eq_false_2; [done|]. rewrite Hnone. by intros [? ?].
Qed.

Lemma flag_not_clean ph : flag ph ≠ AtExec false.
Proof. by destruct ph. Qed.

Lemma flag_returned ph : flag ph = Returned → ph = Returned.
Proof. by destruct ph. Qed.

Lemma race_step_inv id item s0 σ σ' :
  race_inv id s0 σ → race_step id item σ σ' → race_inv id s0 σ'.
Proof.
  intros (Hoth & Hcase & He & Hr & Hdone) Hstep.
  destruct Hstep as [σ ph' s' w Hcs | σ ph' s' w Hcs];
    destruct σ as [s pe pr]; cbn [db editor retractor] in *.
  - destruct pe as [|d|[|]|]; unfold client_step in Hcs; try discriminate;
      injection Hcs as <- <- <-;
      unfold race_inv, notify; cbn [db editor retractor andb guard].
    + by split_and!.
    + pose proof (guard_decides id s0 s _ Hcase eq_refl) as Hg.
      by destruct (hexists feed_items id s); split_and!.
    + by split_and!.
    + specialize (He eq_refl). rewrite edit_writes_items.
      pose proof (edit_commit_kept id item s0 s He) as Hk.
      split_and!; try done.
      * intros y Hy. etrans; [by apply edit_commit_others|by apply Hoth].
      * by left.
      * intros Hf%flag_returned.
        destruct (kept_not_dropped id s0 s He (Hdone Hf)).
  - destruct pr as [|d|[|]|]; unfold client_step in Hcs; try discriminate;
      injection Hcs as <- <- <-;
      unfold race_inv, notify; cbn [db editor retractor andb guard].
    + by split_and!.
    + pose proof (guard_decides id s0 s _ Hcase eq_refl) as Hg.
      by destruct (hexists feed_items id s); split_and!.
    + by split_and!.
    + specialize (Hr eq_refl). rewrite retract_writes_items.
      pose proof (retract_commit_dropped id s0 s Hr) as Hd.
      split_and!; try done.
      * intros y Hy. etrans; [by apply retract_commit_others|by apply Hoth].
      * by right.
      * intros Hf. by apply flag_not_clean in Hf.
Qed.

Lemma budget_flag ph : (budget (flag ph) ≤ budget ph + 3)%nat.
Proof. destruct ph as [|[|]|[|]|]; cbn; lia. Qed.

Lemma budget_notify a w ph : (budget (notify a w ph) ≤ budget ph + 3)%nat.
Proof.
  unfold notify. destruct (w && _); [apply budget_flag|lia].
Qed.

(** Every round trip of the race uses up some of the budget: the race
    cannot go on for ever. *)
Lemma race_step_measure id item σ σ' :
  race_step id item σ σ' → (race_measure σ' < race_measure σ)%nat.
Proof.
  intros Hstep.
  destruct Hstep as [σ ph' s' w Hcs | σ ph' s' w Hcs];
    destruct σ as [s pe pr]; unfold race_measure; cbn [db editor retractor] in *.
  - pose proof (budget_notify (edit_attempt id item) w pr) as Hn.
    destruct pe as [|[|]|[|]|]; unfold client_step in Hcs; try discriminate;
      injection Hcs as <- <- <-; cbn [guard];
      try destruct (hexists feed_items id s); unfold notify in *; cbn in *; lia.
  - pose proof (budget_notify (retract_attempt id) w pe) as Hn.
    destruct pr as [|[|]|[|]|]; unfold client_step in Hcs; try discriminate;
      injection Hcs as <- <- <-; cbn [guard];
      try destruct (hexists feed_items id s); unfold notify in *; cbn in *; lia.
Qed.

(** While a connection has not returned, the race can take a step. *)
Lemma race_progress id item σ :
  ¬ race_over σ → ∃ σ', race_step id item σ σ'.
Proof.
  intros Hnot.
  destruct (client_step (edit_attempt id item) (editor σ) (db σ))
    as [[[ph' s'] w]|] eqn:He.
  { eexists. by eapply editor_moves. }
  destruct (client_step (retract_attempt id) (retractor σ) (db σ))
    as [[[ph' s'] w]|] eqn:Hr.
  { eexists. by eapply retractor_moves. }
  destruct Hnot. split.
  - by destruct (editor σ) as [|?|[|]|].
  - by destruct (retractor σ) as [|?|[|]|].
Qed.

Lemma race_run_inv id item s0 n σ0 σ :
  race_inv id s0 σ0 →
  nsteps (race_step id item) n σ0 σ →
  race_inv id s0 σ ∧ (n + race_measure σ ≤ race_measure σ0)%nat.
Proof.
  intros Hinv Hrun. induction Hrun as [σ|n σ0 σ1 σ Hstep Hrun IH].
  - split; [done|lia].
  - destruct IH as [Hinv' Hle]; [by eapply race_step_inv|].
    split; [done|]. apply race_step_measure in Hstep. lia.
Qed.

Lemma race_start_inv id s :
  hexists feed_items id s = true → race_inv id s (race_start s).
Proof.
  intros Hex.
  assert (kept id s s) as Hk.
  { split; [done|]. unfold get_item, hget.
    by apply elem_of_dom, (hexists_true feed_items). }
  unfold race_inv. cbn. split_and!; try done. by left.
Qed.

(** Whatever the interleaving, the race ends with the id retracted. *)
Lemma race_ends_retracted id item s n σ :
  hexists feed_items id s = true →
  nsteps (race_step id item) n (race_start s) σ →
  race_over σ →
  dropped id s (db σ).
Proof.
  intros Hex Hrun [_ Hret].
  destruct (race_run_inv id item s n _ σ (race_start_inv id s Hex) Hrun)
    as [(_ & _ & _ & _ & Hdone) _].
  by apply Hdone.
Qed.

(** C3: [edit id item] and [retract id] run from two connections on an id
    that has an item, their round trips interleaved in any way.  In every
    state on the way either the order list is untouched and the id has an
    item, or the id's first occurrence is out of the order list and its item
    is gone: never one without the other; so where the id stood once in the
    order list, it is in the list exactly when it has an item.  The items of
    other ids stay as they were.  The race is over after at most twelve
    round trips, and until it is over some connection can move.  Once both
    calls have returned, either the id holds the edited item or the id is
    removed from both stores, and not both. *)
Theorem edit_retract_race (id : Z) (item : string) (s : store) (n : nat)
    (σ : race) :
  hexists feed_items id s = true →
  nsteps (race_step id item) n (race_start s) σ →
  let untouched :=
    get_ids (db σ) = get_ids s ∧ is_Some (get_item id (db σ)) in
  let updated :=
    get_ids (db σ) = get_ids s ∧ get_item id (db σ) = Some item in
  let removed :=
    get_ids (db σ) = lrem_list 1 id (get_ids s) ∧
    get_item id (db σ) = None in
  (untouched ∨ removed) ∧
  (id ∈ get_ids s → NoDup (get_ids s) →
     (id ∈ get_ids (db σ) ↔ is_Some (get_item id (db σ)))) ∧
  (∀ y, y ≠ id → get_item y (db σ) = get_item y s) ∧
  (n ≤ 12)%nat ∧
  (¬ race_over σ → ∃ σ', race_step id item σ σ') ∧
  (race_over σ → (updated ∨ removed) ∧ ¬ (updated ∧ removed)).
Proof.
  intros Hex Hrun. cbn zeta.
  destruct (race_run_inv id item s n _ σ (race_start_inv id s Hex) Hrun)
    as [(Hoth & Hcase & _ & _ & Hdone) Hle].
  split_and!.
  - done.
  - intros Hin Hnd.
    destruct Hcase as [(Hord & Hsome)|(Hord & Hnone)]; rewrite Hord.
    + done.
    + rewrite Hnone. split; [|by intros [? ?]].
      intros Hstill. pose proof (lrem_one_perm _ _ Hin) as Hperm.
      rewrite Hperm in Hnd. by apply NoDup_cons in Hnd as [Hfresh _].
  - done.
  - unfold race_measure in Hle. cbn in Hle. lia.
  - apply race_progress.
  - intros [_ Hret]. split.
    + right. by apply Hdone.
    + intros [[_ Hsome] [_ Hnone]]. congruence.
Qed.

Lemma edit_retract_race_witness :
  hexists feed_items 1 one_item_feed = true ∧
  nsteps (race_step 1 "b") 6 (race_start one_item_feed) race_end ∧
  (∀ y, y ≠ 1 → get_item y (db race_end) = get_item y one_item_feed).
Proof.
  assert (hexists feed_items 1 one_item_feed = true) as Hex
    by (vm_compute; reflexivity).
  assert (nsteps (race_step 1 "b") 6 (race_start one_item_feed) race_end)
    as Hrun.
  { do 3 (eapply nsteps_l; [apply editor_moves; reflexivity|]).
    do 3 (eapply nsteps_l; [apply retractor_moves; reflexivity|]).
    apply nsteps_O. }
  split; [exact Hex|]. split; [exact Hrun|].
  destruct (edit_retract_race 1 "b" one_item_feed 6 race_end Hex Hrun)
    as (_ & _ & Hothers & _).
  exact Hothers.
Defined.

(** * Further properties of the methods *)

(** ** Fresh ids *)

Lemma from_empty_bounded s x :
  reachable_from empty_feed s →
  x ∈ get_ids s ∨ is_Some (get_item x s) →
  x ≤ id_counter s.
Proof.
  intros (HI & _ & Hle)%I1_from_empty_feed Hx.
  assert (x ∈ order s) as Hin.
  { destruct Hx as [Hx|Hx]; [done|]. by apply I1_elem, elem_of_dom. }
  rewrite Forall_forall in Hle. by apply Hle.
Qed.

(** X1: on a feed grown from the empty feed, the id a call returns was in
    neither store before the call, is in both after it, stored with the
    item the call carried, and no other id's item has changed. *)
Theorem returned_id_is_fresh (c : call) (s : store) (id : Z) :
  reachable_from empty_feed s →
  value (perform c) s = Some id →
  let s' := after (perform c) s in
  (id ∉ get_ids s) ∧ get_item id s = None ∧
  id ∈ get_ids s' ∧ get_item id s' = payload c ∧
  (∀ y, y ≠ id → get_item y s' = get_item y s).
Proof.
  intros Hreach Hval. cbn zeta.
  destruct (perform_value c s id Hval) as [Halloc ->].
  assert (id_counter s + 1 ∉ get_ids s) as Hfresh1.
  { intros Hin. pose proof (from_empty_bounded s _ Hreach (or_introl Hin)). lia. }
  assert (get_item (id_counter s + 1) s = None) as Hfresh2.
  { apply eq_None_not_Some. intros Hin.
    pose proof (from_empty_bounded s _ Hreach (or_intror Hin)). lia. }
  apply I1_from_empty_feed in Hreach as (HI & _).
  split; [done|]. split; [done|].
  unfold get_ids, get_item, lrange_all, hget in *.
  destruct c; try discriminate; revert Hval; unfold_call; cbn zeta.
  - intros _. cbn. split_and!.
    + apply elem_of_app. right. by apply list_elem_of_singleton.
    + apply lookup_insert_eq.
    + intros y Hy. by rewrite lookup_insert_ne.
  - intros _. cbn. split_and!.
    + apply elem_of_cons. by left.
    + apply lookup_insert_eq.
    + intros y Hy. by rewrite lookup_insert_ne.
  - intros _. cbn. split_and!.
    + apply elem_of_app. right. by apply list_elem_of_singleton.
    + apply lookup_insert_eq.
    + intros y Hy. by rewrite lookup_insert_ne.
  - destruct (hexists _ _ _) eqn:Hex; [|discriminate]. intros _. cbn.
    apply hexists_true in Hex. split_and!.
    + apply linsert_list_elem. by apply I1_elem.
    + apply lookup_insert_eq.
    + intros y Hy. by rewrite lookup_insert_ne.
  - destruct (hexists _ _ _) eqn:Hex; [|discriminate]. intros _. cbn.
    apply hexists_true in Hex. split_and!.
    + apply linsert_list_elem. by apply I1_elem.
    + apply lookup_insert_eq.
    + intros y Hy. by rewrite lookup_insert_ne.
Qed.

Lemma returned_id_is_fresh_witness :
  reachable_from empty_feed one_item_feed ∧
  value (perform (Prepend "b")) one_item_feed = Some 2 ∧
  (2 ∉ get_ids one_item_feed).
Proof.
  assert (reachable_from empty_feed one_item_feed) as Hreach
    by (exists [PublishTail "a"]; reflexivity).
  split; [exact Hreach|]. split; [reflexivity|].
  exact (proj1 (returned_id_is_fresh (Prepend "b") one_item_feed 2
                  Hreach eq_refl)).
Defined.

(** ** [edit] and [retract] *)

(** X2: [edit] works in place.  Whether or not the id has an item, the order
    list, the set of ids that have an item, the id counter and every other
    id's item are as before; the item under the id is the new one when there
    was one, and still missing when there was none. *)
Theorem edit_in_place (id : Z) (item : string) (s : store) :
  let s' := after (edit id item) s in
  get_ids s' = get_ids s ∧
  dom (get_items s') = dom (get_items s) ∧
  id_counter s' = id_counter s ∧
  handed_out s' = handed_out s ∧
  (∀ y, y ≠ id → get_item y s' = get_item y s) ∧
  get_item id s' = (λ _, item) <$> get_item id s.
Proof.
  cbn zeta. unfold after, get_ids, get_items, get_item, lrange_all, hgetall, hget.
  rewrite edit_unfold.
  destruct (hexists feed_items id s) eqn:Hex; cbn.
  - apply hexists_true in Hex. split_and!; try done.
    + rewrite dom_insert_L. apply set_eq. intros x.
      rewrite elem_of_union, elem_of_singleton. split; [|tauto]. by intros [->|?].
    + intros y Hy. by rewrite lookup_insert_ne.
    + rewrite lookup_insert_eq. apply elem_of_dom in Hex as [v ->]. done.
  - apply hexists_false in Hex. split_and!; try done. by rewrite Hex.
Qed.

(** X3: [retract] twice is [retract] once: the second call finds no item and
    leaves the whole database, messages included, as the first left it. *)
Theorem retract_twice (id : Z) (s : store) :
  after (retract id) (after (retract id) s) = after (retract id) s.
Proof.
  unfold after. rewrite (retract_unfold id s).
  destruct (hexists feed_items id s) eqn:Hex; cbn [snd].
  - rewrite retract_unfold.
    assert (hexists feed_items id
      {| order := lrem_list 1 id (order s); content := delete id (content s);
         id_counter := id_counter s; publish_counter := publish_counter s;
         outbox := outbox s ++ [(feed_retract, str id)];
         handed_out := handed_out s |} = false) as ->; [|done].
    apply hexists_false. cbn. apply lookup_delete_eq.
  - by rewrite retract_unfold, Hex.
Qed.

(** X4: on a feed where the next id is in neither store, as on every feed
    grown from the empty feed, [publish] followed by [retract] of the id it
    returned brings the order list and the item hash back to what they
    were; the same holds for [prepend]. *)
Theorem publish_then_retract (item : string) (s : store) :
  id_counter s + 1 ∉ get_ids s →
  get_item (id_counter s + 1) s = None →
  let back_tail := after (retract (value (publish item) s))
                     (after (publish item) s) in
  let back_head := after (retract (value (prepend item) s))
                     (after (prepend item) s) in
  get_ids back_tail = get_ids s ∧ get_items back_tail = get_items s ∧
  get_ids back_head = get_ids s ∧ get_items back_head = get_items s.
Proof.
  unfold get_ids, get_items, get_item, lrange_all, hgetall, hget.
  intros Hfresh Hnone. cbn zeta. unfold after, value.
  rewrite publish_unfold, prepend_unfold. cbn zeta. cbn [fst snd].
  rewrite !retract_unfold.
  assert (∀ o p out h,
    hexists feed_items (id_counter s + 1)
      {| order := o; content := <[id_counter s + 1 := item]> (content s);
         id_counter := id_counter s + 1; publish_counter := p; outbox := out;
         handed_out := h |} = true) as Hex.
  { intros. apply hexists_true. cbn. rewrite dom_insert_L.
    apply elem_of_union. left. by apply elem_of_singleton. }
  rewrite !Hex. cbn.
  rewrite delete_insert_id by done. split_and!; try done.
  - pose proof (lrem_one_split (id_counter s + 1) (order s) [] Hfresh) as Hrem.
    unfold lrem_list in Hrem. rewrite Hrem. apply app_nil_r.
  - rewrite decide_True by done. by destruct (order s).
Qed.

Lemma publish_then_retract_witness :
  (0 + 1 ∉ get_ids empty_feed) ∧
  get_item (0 + 1) empty_feed = None ∧
  get_ids (after (retract (value (publish "a") empty_feed))
             (after (publish "a") empty_feed)) = get_ids empty_feed.
Proof.
  assert (0 + 1 ∉ get_ids empty_feed) as Hfresh by apply not_elem_of_nil.
  split; [exact Hfresh|]. split; [reflexivity|].
  exact (proj1 (publish_then_retract "a" empty_feed Hfresh eq_refl)).
Defined.

(** ** Edges of the list commands *)

(** X5: the anchor test looks in the item hash, the insertion in the order
    list.  Where the anchor has an item but is not in the order list,
    [publish_before] and [publish_after] still return the new id, store the
    item and send the message, while the order list stays as it was: the new
    item has no place in the order, and I1 fails afterwards. *)
Theorem insert_with_unlisted_anchor (s : store) (anchor : Z) (item : string)
    (m : method) :
  hexists feed_items anchor s = true →
  anchor ∉ get_ids s →
  id_counter s + 1 ∉ get_ids s →
  let op := match m with
            | BEFORE => publish_before anchor item
            | AFTER => publish_after anchor item
            end in
  let id := id_counter s + 1 in
  value op s = Some id ∧
  get_ids (after op s) = get_ids s ∧
  get_item id (after op s) = Some item ∧
  outbox (after op s) = outbox s ++ [(feed_publish, id_item id item)] ∧
  ¬ I1 (after op s).
Proof.
  unfold get_ids, get_item, lrange_all, hget.
  intros Hex Hanchor Hfresh. cbn zeta.
  assert (∀ m', __insert item anchor m' s =
    (Some (id_counter s + 1),
     {| order := order s;
        content := <[id_counter s + 1 := item]> (content s);
        id_counter := id_counter s + 1;
        publish_counter := publish_counter s;
        outbox := outbox s ++ [(feed_publish, id_item (id_counter s + 1) item)];
        handed_out := handed_out s ++ [id_counter s + 1] |})) as Hins.
  { intros m'. rewrite insert_unfold, Hex. cbn zeta.
    by rewrite linsert_list_absent. }
  assert (value (__insert item anchor m) s = Some (id_counter s + 1) ∧
          order (after (__insert item anchor m) s) = order s ∧
          content (after (__insert item anchor m) s) !! (id_counter s + 1)
            = Some item ∧
          outbox (after (__insert item anchor m) s)
            = outbox s ++ [(feed_publish, id_item (id_counter s + 1) item)] ∧
          ¬ I1 (after (__insert item anchor m) s)) as Hall.
  { unfold value, after. rewrite Hins. cbn. split_and!; try done.
    - apply lookup_insert_eq.
    - unfold I1. cbn. intros Heq. apply Hfresh.
      apply (elem_of_list_to_set (C:=gset Z)). rewrite Heq, dom_insert_L.
      apply elem_of_union. left. by apply elem_of_singleton. }
  by destruct m.
Qed.

Lemma insert_with_unlisted_anchor_witness :
  hexists feed_items 3 unlisted_feed = true ∧
  (3 ∉ get_ids unlisted_feed) ∧
  (3 + 1 ∉ get_ids unlisted_feed) ∧
  get_ids (after (publish_before 3 "b") unlisted_feed) = get_ids unlisted_feed ∧
  get_item (3 + 1) (after (publish_before 3 "b") unlisted_feed) = Some "b".
Proof.
  assert (hexists feed_items 3 unlisted_feed = true) as Hex
    by (vm_compute; reflexivity).
  assert (3 ∉ get_ids unlisted_feed) as Hanchor by apply not_elem_of_nil.
  assert (3 + 1 ∉ get_ids unlisted_feed) as Hfresh by apply not_elem_of_nil.
  split; [exact Hex|]. split; [exact Hanchor|]. split; [exact Hfresh|].
  destruct (insert_with_unlisted_anchor unlisted_feed 3 "b" BEFORE
              Hex Hanchor Hfresh) as (_ & Hids & Hitem & _).
  split; [exact Hids | exact Hitem].
Defined.

(** X6: [retract] takes one occurrence out of the order list.  An id that
    the list holds a second time is still listed after [retract], with no
    item behind it, and a further [retract] of it does nothing. *)
Theorem retract_of_repeated_id (s : store) (X : Z) (l1 l2 : list Z) :
  hexists feed_items X s = true →
  get_ids s = l1 ++ X :: l2 →
  X ∉ l1 →
  X ∈ l2 →
  let s' := after (retract X) s in
  get_ids s' = l1 ++ l2 ∧
  X ∈ get_ids s' ∧
  get_item X s' = None ∧
  after (retract X) s' = s'.
Proof.
  unfold get_ids, get_item, lrange_all, hget.
  intros Hex Hsplit Hl1 Hl2. cbn zeta.
  assert (after (retract X) s =
    {| order := l1 ++ l2; content := delete X (content s);
       id_counter := id_counter s; publish_counter := publish_counter s;
       outbox := outbox s ++ [(feed_retract, str X)];
       handed_out := handed_out s |}) as ->.
  { unfold after. rewrite retract_unfold, Hex, Hsplit. cbn.
    pose proof (lrem_one_split X l1 l2 Hl1) as Hrem.
    unfold lrem_list in Hrem. by rewrite Hrem. }
  cbn. split_and!; try done.
  - apply elem_of_app. by right.
  - apply lookup_delete_eq.
  - unfold after. rewrite retract_unfold.
    assert (hexists feed_items X
      {| order := l1 ++ l2; content := delete X (content s);
         id_counter := id_counter s; publish_counter := publish_counter s;
         outbox := outbox s ++ [(feed_retract, str X)];
         handed_out := handed_out s |} = false) as ->; [|done].
    apply hexists_false. cbn. apply lookup_delete_eq.
Qed.

Lemma retract_of_repeated_id_witness :
  hexists feed_items 5 doubled_feed = true ∧
  get_ids doubled_feed = [] ++ 5 :: [5] ∧
  (5 ∉ ([] : list Z)) ∧
  5 ∈ [5] ∧
  5 ∈ get_ids (after (retract 5) doubled_feed).
Proof.
  assert (hexists feed_items 5 doubled_feed = true) as Hex
    by (vm_compute; reflexivity).
  assert (5 ∉ ([] : list Z)) as Hl1 by apply not_elem_of_nil.
  assert (5 ∈ [5]) as Hl2 by (apply elem_of_cons; left; reflexivity).
  split; [exact Hex|]. split; [reflexivity|]. split; [exact Hl1|].
  split; [exact Hl2|].
  destruct (retract_of_repeated_id doubled_feed 5 [] [5] Hex eq_refl Hl1 Hl2)
    as (_ & Hstill & _).
  exact Hstill.
Defined.

(** ** What a call does to the order and to the channels *)

Lemma linsert_list_sublist m pivot v l :
  l `sublist_of` linsert_list m pivot v l.
Proof.
  induction l as [|x l IH]; cbn; [done|].
  destruct (decide (x = pivot)).
  - destruct m; [by apply sublist_cons|].
    apply sublist_skip. by apply sublist_cons.
  - by apply sublist_skip.
Qed.

(** X7: no call reorders the ids that stay.  After any call but [retract]
    the old order list is a subsequence of the new one; after [retract] the
    new one is a subsequence of the old. *)
Theorem calls_keep_relative_order (c : call) (s : store) :
  match c with
  | Retract _ => get_ids (after (perform c) s) `sublist_of` get_ids s
  | _ => get_ids s `sublist_of` get_ids (after (perform c) s)
  end.
Proof.
  unfold get_ids, lrange_all.
  destruct c; unfold_call; cbn zeta; cbn.
  - by apply sublist_inserts_r.
  - by apply sublist_cons.
  - by apply sublist_inserts_r.
  - destruct (hexists _ _ _); cbn; [apply linsert_list_sublist|done].
  - destruct (hexists _ _ _); cbn; [apply linsert_list_sublist|done].
  - by destruct (hexists _ _ _).
  - destruct (hexists _ _ _); cbn; [apply lrem_one_sublist|done].
Qed.

Lemma perform_outbox c s :
  outbox (after (perform c) s) =
  outbox s ++ (if commits c s then [message c s] else []).
Proof.
  unfold commits.
  destruct c; unfold_call; cbn zeta; cbn [target message];
    try (cbn; done);
    destruct (hexists _ _ _); cbn; by rewrite ?app_nil_r.
Qed.

(** X8: a call sends exactly one message when it commits and none when it
    does not; a call that returns an id has committed; messages on the
    retract channel come from [retract] alone and carry the id only.  Over
    a sequence of calls the messages already sent stay, in order, and at
    most one per call is added. *)
Theorem one_message_per_commit (c : call) (cs : list call) (s : store) :
  outbox (after (perform c) s) =
    outbox s ++ (if commits c s then [message c s] else []) ∧
  (is_Some (value (perform c) s) → commits c s = true) ∧
  ((message c s).1 = feed_retract ↔ ∃ id, c = Retract id ∧
                                           message c s = (feed_retract, str id)) ∧
  ∃ sent, outbox (after (perform_all cs) s) = outbox s ++ sent ∧
          (length sent ≤ length cs)%nat.
Proof.
  split_and!.
  - apply perform_outbox.
  - unfold commits. destruct c; unfold_call; cbn [target]; try done;
      destruct (hexists _ _ _); cbn; by intros [? ?].
  - destruct c; cbn; split; try discriminate;
      try (by intros (? & ? & _)). by eexists.
  - revert s. induction cs as [|c' cs IH]; intros s.
    + exists []. cbn. by rewrite app_nil_r.
    + rewrite perform_all_cons.
      destruct (IH (after (perform c') s)) as (sent & -> & Hlen).
      rewrite perform_outbox, <- app_assoc. eexists. split; [done|].
      rewrite length_app. destruct (commits c' s); cbn; lia.
Qed.

(** ** Counting *)

Lemma linsert_list_elem_inv m pivot v l x :
  x ∈ linsert_list m pivot v l → x = v ∨ x ∈ l.
Proof.
  destruct (decide (pivot ∈ l)) as [Hin|Hout].
  - rewrite (linsert_list_perm m pivot v l Hin). by intros ?%elem_of_cons.
  - rewrite linsert_list_absent by done. by right.
Qed.

Lemma perform_accounted c s : accounted s → accounted (after (perform c) s).
Proof.
  intros (Hlen & Hsub & Hpub).
  assert (∀ x, x ∈ order s → x ∈ handed_out s ++ [id_counter s + 1]) as Hsub'.
  { intros x Hx. apply elem_of_app. left. by apply Hsub. }
  assert (id_counter s + 1 ∈ handed_out s ++ [id_counter s + 1]) as Hnew.
  { apply elem_of_app. right. by apply list_elem_of_singleton. }
  assert (Z.of_nat (length (handed_out s ++ [id_counter s + 1]))
          = id_counter s + 1) as Hlen'.
  { rewrite length_app. cbn. lia. }
  assert (∀ A (l : list A) (x : A),
            Z.of_nat (length (l ++ [x])) = Z.of_nat (length l) + 1) as Hgrow.
  { intros. rewrite length_app. cbn. lia. }
  destruct c; unfold_call; cbn zeta; unfold accounted;
    try destruct (hexists _ _ _); cbn [fst snd order handed_out id_counter
      publish_counter outbox]; rewrite ?Hgrow;
    (split_and!; [done || lia | | lia | lia]); try done.
  - intros x [Hx|Hx]%elem_of_app; [auto|].
    apply list_elem_of_singleton in Hx as ->. auto.
  - intros x [->|Hx]%elem_of_cons; auto.
  - intros x [Hx|Hx]%elem_of_app; [auto|].
    apply list_elem_of_singleton in Hx as ->. auto.
  - intros x [->|Hx]%linsert_list_elem_inv; auto.
  - intros x [->|Hx]%linsert_list_elem_inv; auto.
  - intros x Hx. apply Hsub. eapply elem_of_sublist; [done|apply lrem_one_sublist].
Qed.

Lemma accounted_from_empty_feed s :
  reachable_from empty_feed s → accounted s.
Proof.
  intros [cs ->]. generalize empty_feed
    (ltac:(unfold accounted; cbn; split_and!; [done| |lia|lia];
           by intros x ?%elem_of_nil) : accounted empty_feed).
  induction cs as [|c cs IH]; intros s Hs; [done|].
  rewrite perform_all_cons. by apply IH, perform_accounted.
Qed.

(** X9: on a feed grown from the empty feed there are as many items as
    listed ids, no more listed ids than ids drawn, the id counter is the
    number of ids drawn, and the publish counter is at least zero and at
    most the number of messages sent. *)
Theorem feed_counts (s : store) :
  reachable_from empty_feed s →
  size (get_items s) = length (get_ids s) ∧
  Z.of_nat (length (get_ids s)) ≤ id_counter s ∧
  Z.of_nat (length (handed_out s)) = id_counter s ∧
  0 ≤ publish_counter s ≤ Z.of_nat (length (outbox s)).
Proof.
  intros Hreach.
  destruct (I1_from_empty_feed s Hreach) as (HI & Hnd & _).
  destruct (accounted_from_empty_feed s Hreach) as (Hlen & Hsub & Hpub).
  unfold get_items, get_ids, hgetall, lrange_all. split_and!; try done.
  - rewrite <- size_dom, <- HI. by apply size_list_to_set.
  - rewrite <- Hlen. apply inj_le, submseteq_length.
    by apply NoDup_submseteq.
  - lia.
  - lia.
Qed.

Lemma feed_counts_witness :
  reachable_from empty_feed one_item_feed ∧
  size (get_items one_item_feed) = length (get_ids one_item_feed).
Proof.
  assert (reachable_from empty_feed one_item_feed) as Hreach
    by (exists [PublishTail "a"]; reflexivity).
  split; [exact Hreach|].
  exact (proj1 (feed_counts one_item_feed Hreach)).
Defined.

(** ** Inserting twice at one anchor *)

Lemma insert_counter item anchor m s :
  id_counter (after (__insert item anchor m) s) = id_counter s + 1.
Proof.
  unfold after. rewrite insert_unfold. cbn zeta. by destruct (hexists _ _ _).
Qed.

Lemma insert_keeps_items item anchor m s y :
  hexists feed_items y s = true →
  hexists feed_items y (after (__insert item anchor m) s) = true.
Proof.
  intros Hy. unfold after. rewrite insert_unfold. cbn zeta.
  destruct (hexists feed_items anchor s); cbn; [|done].
  apply hexists_true in Hy. apply hexists_true. cbn.
  rewrite dom_insert_L. apply elem_of_union. by right.
Qed.

(** X10: two inserts at the same anchor.  The second [publish_after] lands
    between the anchor and the first, so the later item comes first; the
    second [publish_before] lands between the first and the anchor, so the
    items keep their order of arrival. *)
Theorem two_inserts_at_one_anchor (s : store) (X : Z) (a b : string)
    (l1 l2 : list Z) :
  hexists feed_items X s = true →
  get_ids s = l1 ++ X :: l2 →
  X ∉ l1 →
  X ≠ id_counter s + 1 →
  let i := id_counter s + 1 in
  let j := id_counter s + 2 in
  get_ids (after (publish_after X b) (after (publish_after X a) s))
    = l1 ++ X :: j :: i :: l2 ∧
  get_ids (after (publish_before X b) (after (publish_before X a) s))
    = l1 ++ i :: j :: X :: l2.
Proof.
  intros Hex Hsplit Hl1 Hne. cbn zeta. unfold publish_after, publish_before.
  split.
  - destruct (insert_lands a X AFTER s l1 l2 Hex Hsplit Hl1) as [_ Hfirst].
    destruct (insert_lands b X AFTER _ l1 (id_counter s + 1 :: l2)
                (insert_keeps_items a X AFTER s X Hex) Hfirst Hl1)
      as [_ Hsecond].
    rewrite Hsecond, insert_counter. do 3 f_equal. lia.
  - destruct (insert_lands a X BEFORE s l1 l2 Hex Hsplit Hl1) as [_ Hfirst].
    assert (X ∉ l1 ++ [id_counter s + 1]) as Hl1'.
    { intros [?|Hin]%elem_of_app; [done|].
      by apply list_elem_of_singleton in Hin. }
    destruct (insert_lands b X BEFORE _ (l1 ++ [id_counter s + 1]) l2
                (insert_keeps_items a X BEFORE s X Hex)) as [_ Hsecond];
      [by rewrite Hfirst, <- app_assoc|done|].
    rewrite Hsecond, insert_counter, <- app_assoc. cbn. do 3 f_equal. lia.
Qed.

Lemma two_inserts_at_one_anchor_witness :
  hexists feed_items 1 one_item_feed = true ∧
  get_ids one_item_feed = [] ++ 1 :: [] ∧
  (1 ∉ ([] : list Z)) ∧
  1 ≠ id_counter one_item_feed + 1 ∧
  get_ids (after (publish_after 1 "c") (after (publish_after 1 "b")
                                          one_item_feed))
    = [] ++ 1 :: (id_counter one_item_feed + 2)
            :: (id_counter one_item_feed + 1) :: [].
Proof.
  assert (hexists feed_items 1 one_item_feed = true) as Hex
    by (vm_compute; reflexivity).
  assert (1 ∉ ([] : list Z)) as Hl1 by apply not_elem_of_nil.
  assert (1 ≠ id_counter one_item_feed + 1) as Hne by (vm_compute; discriminate).
  split; [exact Hex|]. split; [reflexivity|]. split; [exact Hl1|].
  split; [exact Hne|].
  exact (proj1 (two_inserts_at_one_anchor one_item_feed 1 "b" "c" [] []
                  Hex eq_refl Hl1 Hne)).
Defined.

(** ** The loop with the server to itself *)

(** X11: run by a connection that has the server to itself, the loops of
    [edit], [retract] and [__insert] return within four round trips, in the
    state the method is modelled to leave. *)
Theorem loop_alone_is_method (fuel : nat) (id : Z) (item : string)
    (m : method) (s : store) :
  (4 ≤ fuel)%nat →
  run_alone fuel (edit_attempt id item) AtWatch s
    = Some (after (edit id item) s) ∧
  run_alone fuel (retract_attempt id) AtWatch s
    = Some (after (retract id) s) ∧
  run_alone fuel (insert_attempt (id_counter s + 1) item id m) AtWatch
      (after (incr feed_id_incr) s)
    = Some (after (__insert item id m) s).
Proof.
  intros Hfuel. rewrite !run_alone_unchallenged by done. split_and!.
  - unfold after, edit, mbind, redis_bind.
    by destruct (unchallenged (edit_attempt id item) s).
  - unfold after, retract, mbind, redis_bind.
    by destruct (unchallenged (retract_attempt id) s).
  - unfold after, __insert, mbind, redis_bind. cbn [incr fst snd].
    by destruct (unchallenged _ _).
Qed.

Lemma loop_alone_is_method_witness :
  (4 ≤ 4)%nat ∧
  run_alone 4 (retract_attempt 1) AtWatch one_item_feed
    = Some (after (retract 1) one_item_feed).
Proof.
  split; [lia|].
  destruct (loop_alone_is_method 4 1 "b" BEFORE one_item_feed (le_n 4))
    as (_ & Hretract & _).
  exact Hretract.
Defined.

(** ** Reading messages back *)

Lemma digits_no_nul d : has_nul (NilEmpty.string_of_uint d) = false.
Proof. induction d; cbn; done. Qed.

Lemma str_no_nul z : has_nul (str z) = false.
Proof.
  unfold str, NilZero.string_of_int, NilZero.string_of_uint.
  destruct (Z.to_int z) as [d|d]; destruct d; cbn; try done;
    apply digits_no_nul.
Qed.

Lemma str_reads_back z :
  Z.of_int <$> NilZero.int_of_string (str z) = Some z.
Proof.
  unfold str. rewrite NilZero.isi.
  - cbn. by rewrite DecimalZ.of_to.
  - destruct z; cbn; try discriminate.
    intros [= H]. by apply Unsigned.to_uint_nonnil in H.
  - destruct z; cbn; try discriminate.
    intros [= H]. by apply Unsigned.to_uint_nonnil in H.
Qed.

Lemma split_at_first_nul a a' b b' :
  has_nul a = false → has_nul a' = false →
  a +:+ String Ascii.zero b = a' +:+ String Ascii.zero b' →
  a = a' ∧ b = b'.
Proof.
  revert a'. induction a as [|c a IH]; intros [|c' a']; cbn.
  - intros _ _ [= ->]. done.
  - destruct (Ascii.eqb c' Ascii.zero) eqn:Hc; [done|].
    intros _ _ [= <- _]. by rewrite Ascii.eqb_refl in Hc.
  - destruct (Ascii.eqb c Ascii.zero) eqn:Hc; [done|].
    intros _ _ [= -> _]. by rewrite Ascii.eqb_refl in Hc.
  - destruct (Ascii.eqb c Ascii.zero); [done|].
    destruct (Ascii.eqb c' Ascii.zero); [done|].
    intros Ha Ha' [= -> Hrest].
    destruct (IH a' Ha Ha' Hrest) as [-> ->]. done.
Qed.

(** X12: messages can be read back.  The decimal id of a retract message
    parses to the id; and a publish message determines both its id and its
    item, whatever bytes the item holds, since the id's digits hold no null
    byte and the message is cut at the first one. *)
Theorem messages_read_back (id id' : Z) (item item' : string) :
  Z.of_int <$> NilZero.int_of_string (str id) = Some id ∧
  (str id = str id' → id = id') ∧
  (id_item id item = id_item id' item' → id = id' ∧ item = item').
Proof.
  assert (str id = str id' → id = id') as Hinj.
  { intros Heq. pose proof (str_reads_back id) as H.
    rewrite Heq, str_reads_back in H. by injection H. }
  split; [apply str_reads_back|]. split; [done|].
  unfold id_item. intros Heq.
  apply split_at_first_nul in Heq as [Hid ->]; try apply str_no_nul.
  split; [by apply Hinj|done].
Qed.

Lemma messages_read_back_witness :
  id_item 12 "c" = id_item 12 "c" ∧ 12 = 12 ∧ "c" = "c".
Proof.
  split; [reflexivity|].
  exact (proj2 (proj2 (messages_read_back 12 12 "c" "c")) eq_refl).
Defined.

(** ** Key names *)

(** X13: feeds with different names have different counter keys; so
    another feed's counter key is among this feed's keys only if the base
    class lists it.  The feed's own counter key is always among them, and
    so is every key of the base class. *)
Theorem counter_key_per_feed (feed feed' : string) (base : gset string) :
  (feed_id_incr_name feed = feed_id_incr_name feed' → feed = feed') ∧
  (feed ≠ feed' →
     feed_id_incr_name feed' ∈ get_schemas feed base →
     feed_id_incr_name feed' ∈ base) ∧
  feed_id_incr_name feed ∈ get_schemas feed base ∧
  base ⊆ get_schemas feed base.
Proof.
  assert (feed_id_incr_name feed = feed_id_incr_name feed' → feed = feed')
    as Hinj by apply String.app_inj.
  unfold get_schemas. split_and!; [done| | |].
  - intros Hne [Heq%elem_of_singleton|Hin]%elem_of_union; [|done].
    symmetry in Heq. by apply Hinj in Heq.
  - apply elem_of_union. left. by apply elem_of_singleton.
  - apply union_subseteq_r.
Qed.

Lemma counter_key_per_feed_witness :
  "news" ≠ "jobs" ∧
  (feed_id_incr_name "jobs" ∈ get_schemas "news" ∅ →
   feed_id_incr_name "jobs" ∈ (∅ : gset string)).
Proof.
  assert ("news" ≠ "jobs") as Hne by discriminate.
  split; [exact Hne|].
  exact (proj1 (proj2 (counter_key_per_feed "news" "jobs" ∅)) Hne).
Defined.

(** ** Any number of connections *)

Lemma held_touch w c : held (touch w c) = held c.
Proof. by destruct w, c. Qed.

Lemma result_touch w c : result (touch w c) = result c.
Proof. by destruct w, c. Qed.

Lemma omap_held_touch w (l : list client) :
  omap held (touch w <$> l) = omap held l.
Proof.
  induction l as [|c l IH]; cbn; [done|]. by rewrite held_touch, IH.
Qed.

Lemma omap_result_touch w (l : list client) :
  omap result (touch w <$> l) = omap result l.
Proof.
  induction l as [|c l IH]; cbn; [done|]. by rewrite result_touch, IH.
Qed.

Lemma omap_middle {A B} (f : A → option B) (l1 : list A) c l2 :
  omap f (l1 ++ c :: l2) ≡ₚ option_list (f c) ++ omap f (l1 ++ l2).
Proof.
  rewrite !omap_app. cbn. destruct (f c); cbn; [|done].
  by rewrite Permutation_middle.
Qed.

Lemma ready_touched s c : ready s (touch true c).
Proof. destruct c as [| | ? ? ? ? ph| ? ? ph| ? ph|]; try done; by destruct ph. Qed.

Lemma ready_same_items s s' c :
  content s' = content s → ready s c → ready s' c.
Proof.
  intros Hc. unfold ready, hexists. by rewrite Hc.
Qed.

(** What one move of a connection can do. *)
Lemma pool_client_step_effect c s c' s' w :
  pool_client_step c s = Some (c', s', w) →
  ready s c →
  I1 s →
  (* a round trip that writes nothing *)
  (order s' = order s ∧ content s' = content s ∧
   id_counter s' = id_counter s ∧ w = false ∧
   (held c' = held c ∨ held c' = None) ∧
   result c = None ∧ result c' = None ∧ ready s' c') ∨
  (* drawing an id *)
  (order s' = order s ∧ content s' = content s ∧
   id_counter s' = id_counter s + 1 ∧ w = false ∧
   held c = None ∧ held c' = Some (id_counter s + 1) ∧
   result c = None ∧ result c' = None ∧ ready s' c') ∨
  (* committing a new id *)
  (∃ id item,
     order s' ≡ₚ id :: order s ∧ content s' = <[id := item]> (content s) ∧
     id_counter s' = id_counter s ∧ w = true ∧
     held c = Some id ∧ held c' = None ∧
     result c = None ∧ result c' = Some id ∧ ready s' c') ∨
  (* committing an edit *)
  (∃ id item,
     order s' = order s ∧ content s' = <[id := item]> (content s) ∧
     id ∈ dom (content s) ∧
     id_counter s' = id_counter s ∧ w = true ∧
     held c = None ∧ held c' = None ∧
     result c = None ∧ result c' = None ∧ ready s' c') ∨
  (* committing a retract *)
  (∃ id,
     order s' = lrem_list 1 id (order s) ∧ content s' = delete id (content s) ∧
     id ∈ dom (content s) ∧
     id_counter s' = id_counter s ∧ w = true ∧
     held c = None ∧ held c' = None ∧
     result c = None ∧ result c' = None ∧ ready s' c').
Proof.
  intros Hstep Hready HI.
  destruct c as [call|front id item|id item rel m ph|id item ph|id ph|r].
  - destruct call; cbn in Hstep; injection Hstep as <- <- <-;
      first [ by right; left | by left; split_and!; auto ].
  - destruct front; cbn in Hstep; injection Hstep as <- <- <-;
      right; right; left; exists id, item; split_and!; try done.
    cbn. by rewrite <- Permutation_cons_append.
  - destruct ph as [|d|[|]|]; cbn in Hstep; try discriminate.
    + injection Hstep as <- <- <-. left. split_and!; auto.
    + destruct (hexists feed_items rel s) eqn:Hex; injection Hstep as <- <- <-;
        left; split_and!; auto. by destruct d.
    + injection Hstep as <- <- <-. left. split_and!; auto.
    + injection Hstep as <- <- <-.
      right. right. left. exists id, item. split_and!; try done. cbn.
      apply linsert_list_perm, I1_elem; [done|]. by apply (hexists_true feed_items).
  - destruct ph as [|d|[|]|]; cbn in Hstep; try discriminate.
    + injection Hstep as <- <- <-. left. split_and!; auto.
    + destruct (hexists feed_items id s) eqn:Hex; injection Hstep as <- <- <-;
        left; split_and!; auto. by destruct d.
    + injection Hstep as <- <- <-. left. split_and!; auto.
    + injection Hstep as <- <- <-.
      right. right. right. left. exists id, item. split_and!; try done.
      by apply (hexists_true feed_items).
  - destruct ph as [|d|[|]|]; cbn in Hstep; try discriminate.
    + injection Hstep as <- <- <-. left. split_and!; auto.
    + destruct (hexists feed_items id s) eqn:Hex; injection Hstep as <- <- <-;
        left; split_and!; auto. by destruct d.
    + injection Hstep as <- <- <-. left. split_and!; auto.
    + injection Hstep as <- <- <-.
      right. right. right. right. exists id. split_and!; try done.
      by apply (hexists_true feed_items).
  - discriminate.
Qed.

Lemma omap_cons_list {A B} (f : A → option B) (c : A) (l : list A) :
  omap f (c :: l) = option_list (f c) ++ omap f l.
Proof. cbn. by destruct (f c). Qed.

Lemma NoDup_sub {A} (l k : list A) : l ⊆+ k → NoDup k → NoDup l.
Proof.
  intros [k' Hk]%submseteq_Permutation. rewrite Hk.
  by intros [? _]%NoDup_app.
Qed.

Lemma pool_step_inv s cs s' cs' :
  pool_step (s, cs) (s', cs') → pool_inv s cs → pool_inv s' cs'.
Proof.
  intros Hstep (HI & Hnd & Hnd2 & Hle & Hready).
  inversion Hstep as [s0 l1 c l2 c' s0' w Hcs]; subst.
  apply Forall_app in Hready as [Hr1 [Hrc Hr2]%Forall_cons].
  assert (NoDup (order s)) as Hord by by apply NoDup_app in Hnd as [? _].
  unfold pool_inv.
  rewrite ?(omap_app held), ?(omap_app result), ?(omap_cons_list held),
    ?(omap_cons_list result), ?omap_held_touch, ?omap_result_touch.
  rewrite (omap_app held), (omap_cons_list held) in Hnd.
  rewrite (omap_app held), (omap_app result), (omap_cons_list held),
    (omap_cons_list result) in Hnd2.
  setoid_rewrite (omap_app held) in Hle.
  setoid_rewrite (omap_app result) in Hle.
  setoid_rewrite (omap_cons_list held) in Hle.
  setoid_rewrite (omap_cons_list result) in Hle.
  set (H1 := omap held l1) in *. set (H2 := omap held l2) in *.
  set (R1 := omap result l1) in *. set (R2 := omap result l2) in *.
  assert (∀ t, (w = true ∨ content s' = content s) →
               Forall (ready s) t → Forall (ready s') (touch w <$> t)) as Hothers.
  { intros t Hw Ht. apply Forall_fmap. eapply Forall_impl; [done|].
    intros c0 Hc0. cbn. destruct Hw as [->|Hsame].
    - apply ready_touched.
    - destruct w; [apply ready_touched|]. by eapply ready_same_items. }
  destruct (pool_client_step_effect c s c' s' w Hcs Hrc HI)
    as [(Ho & Hc & Hn & Hw & Hheld & Hres & Hres' & Hrc')
       |[(Ho & Hc & Hn & Hw & Hheld & Hheld' & Hres & Hres' & Hrc')
       |[(id & item & Ho & Hc & Hn & Hw & Hheld & Hheld' & Hres & Hres' & Hrc')
       |[(id & item & Ho & Hc & Hin & Hn & Hw & Hheld & Hheld' & Hres & Hres' & Hrc')
        |(id & Ho & Hc & Hin & Hn & Hw & Hheld & Hheld' & Hres & Hres' & Hrc')]]]].
  - (* nothing written *)
    rewrite Hres in *. rewrite Hres', Ho, Hn.
    assert (I1 s') as HI' by (unfold I1; by rewrite Ho, Hc).
    assert (Forall (ready s') ((touch w <$> l1) ++ c' :: (touch w <$> l2)))
      as Hready'.
    { apply Forall_app. split; [|apply Forall_cons; split]; auto. }
    destruct Hheld as [-> | ->]; [by split_and!|].
    cbn [option_list]. split_and!; try done.
    + eapply NoDup_sub; [|exact Hnd]. solve_submseteq.
    + eapply NoDup_sub; [|exact Hnd2]. solve_submseteq.
    + intros x Hx. apply Hle. eapply elem_of_submseteq; [exact Hx|].
      solve_submseteq.
  - (* an id drawn *)
    rewrite Hres, Hheld in *. rewrite Hres', Hheld', Ho, Hn. cbn in *.
    assert (∀ x, x ∈ order s ++ (H1 ++ H2) ++ R1 ++ R2 → x ≤ id_counter s)
      as Hle' by done.
    assert (id_counter s + 1 ∉ order s ++ (H1 ++ H2) ++ R1 ++ R2) as Hfresh.
    { intros Hx%Hle'. lia. }
    split_and!.
    + unfold I1. by rewrite Ho, Hc.
    + assert (order s ++ H1 ++ (id_counter s + 1) :: H2
              ≡ₚ (id_counter s + 1) :: order s ++ H1 ++ H2) as ->
        by solve_Permutation.
      apply NoDup_cons. split; [|done].
      intros Hx. apply Hfresh. eapply elem_of_submseteq; [exact Hx|].
      solve_submseteq.
    + assert ((H1 ++ (id_counter s + 1) :: H2) ++ R1 ++ R2
              ≡ₚ (id_counter s + 1) :: (H1 ++ H2) ++ R1 ++ R2) as ->
        by solve_Permutation.
      apply NoDup_cons. split; [|done].
      intros Hx. apply Hfresh. eapply elem_of_submseteq; [exact Hx|].
      solve_submseteq.
    + intros x Hx.
      assert (x ∈ (id_counter s + 1) :: order s ++ (H1 ++ H2) ++ R1 ++ R2)
        as [->|Hx']%elem_of_cons.
      { eapply elem_of_submseteq; [exact Hx|]. solve_submseteq. }
      * lia.
      * apply Hle' in Hx'. lia.
    + apply Forall_app. split; [|apply Forall_cons; split]; auto.
  - (* a new id committed *)
    rewrite Hres, Hheld in *. rewrite Hres', Hheld', Hn. cbn in *.
    split_and!.
    + by eapply grow_I1.
    + rewrite Ho. eapply NoDup_sub; [|exact Hnd]. solve_submseteq.
    + eapply NoDup_sub; [|exact Hnd2]. solve_submseteq.
    + intros x Hx. apply Hle. rewrite Ho in Hx.
      clear -Hx. set_unfold. tauto.
    + apply Forall_app. split; [|apply Forall_cons; split]; auto.
  - (* an edit committed *)
    rewrite Hres, Hheld in *. rewrite Hres', Hheld', Ho, Hn. cbn in *.
    split_and!; try done.
    + unfold I1 in *. rewrite Ho, Hc, dom_insert_L, <- HI. rewrite <- HI in Hin.
      apply set_eq. intros x. rewrite elem_of_union, elem_of_singleton.
      split; [tauto|]. by intros [->|?].
    + apply Forall_app. split; [|apply Forall_cons; split]; auto.
  - (* a retract committed *)
    rewrite Hres, Hheld in *. rewrite Hres', Hheld', Hn. cbn in *.
    pose proof (sublist_submseteq _ _ (lrem_one_sublist id (order s))) as Hsub.
    split_and!.
    + by eapply shrink_I1.
    + rewrite Ho. eapply NoDup_sub; [|exact Hnd]. by apply submseteq_app.
    + done.
    + intros x Hx. apply Hle. rewrite Ho in Hx.
      eapply elem_of_submseteq; [exact Hx|]. by apply submseteq_app.
    + apply Forall_app. split; [|apply Forall_cons; split]; auto.
Qed.

Lemma pool_run_inv σ σ' :
  rtc pool_step σ σ' → pool_inv σ.1 σ.2 → pool_inv σ'.1 σ'.2.
Proof.
  induction 1 as [σ|[s cs] [s1 cs1] σ' Hstep _ IH]; [done|].
  intros Hinv. apply IH. by eapply pool_step_inv.
Qed.

Lemma omap_held_entering (calls : list call) :
  omap held (Entering <$> calls) = [].
Proof. induction calls as [|c calls IH]; cbn; done. Qed.

Lemma omap_result_entering (calls : list call) :
  omap result (Entering <$> calls) = [].
Proof. induction calls as [|c calls IH]; cbn; done. Qed.

Lemma pool_start_inv s calls :
  I1 s → tidy s → pool_inv s (Entering <$> calls).
Proof.
  intros HI [Hnd Hle]. unfold pool_inv.
  rewrite omap_held_entering, omap_result_entering, !app_nil_r.
  split_and!; try done.
  - apply NoDup_nil_2.
  - by apply Forall_forall.
  - apply Forall_fmap, Forall_forall. by intros c _.
Qed.

(** Ids drawn while the pool runs lie above the counter it started from. *)
Lemma pool_step_above c0 s cs s' cs' :
  pool_step (s, cs) (s', cs') →
  pool_inv s cs →
  c0 ≤ id_counter s ∧ (∀ x, x ∈ omap held cs ++ omap result cs → c0 < x) →
  c0 ≤ id_counter s' ∧ (∀ x, x ∈ omap held cs' ++ omap result cs' → c0 < x).
Proof.
  intros Hstep (HI & _ & _ & _ & Hready) [Hc0 Habove].
  inversion Hstep as [s0 l1 c l2 c' s0' w Hcs]; subst.
  apply Forall_app in Hready as [_ [Hrc _]%Forall_cons].
  rewrite ?(omap_app held), ?(omap_app result), ?(omap_cons_list held),
    ?(omap_cons_list result), ?omap_held_touch, ?omap_result_touch.
  setoid_rewrite (omap_app held) in Habove.
  setoid_rewrite (omap_app result) in Habove.
  setoid_rewrite (omap_cons_list held) in Habove.
  setoid_rewrite (omap_cons_list result) in Habove.
  destruct (pool_client_step_effect c s c' s' w Hcs Hrc HI)
    as [(_ & _ & Hn & _ & Hheld & Hres & Hres' & _)
       |[(_ & _ & Hn & _ & Hheld & Hheld' & Hres & Hres' & _)
       |[(id & item & _ & _ & Hn & _ & Hheld & Hheld' & Hres & Hres' & _)
       |[(id & item & _ & _ & _ & Hn & _ & Hheld & Hheld' & Hres & Hres' & _)
        |(id & _ & _ & _ & Hn & _ & Hheld & Hheld' & Hres & Hres' & _)]]]];
    rewrite Hn; (split; [lia|]); rewrite Hres in Habove; rewrite Hres'.
  - destruct Hheld as [-> | ->]; [done|]. intros x Hx. apply Habove.
    clear -Hx. set_unfold. tauto.
  - rewrite Hheld in Habove. rewrite Hheld'. intros x Hx.
    assert (x = id_counter s + 1 ∨
            x ∈ (omap held l1 ++ option_list None ++ omap held l2) ++
                omap result l1 ++ option_list None ++ omap result l2)
      as [->|Hx'] by (clear -Hx; set_unfold; tauto); [lia|by apply Habove].
  - rewrite Hheld in Habove. rewrite Hheld'. intros x Hx. apply Habove.
    clear -Hx. set_unfold. tauto.
  - rewrite Hheld in Habove. by rewrite Hheld'.
  - rewrite Hheld in Habove. by rewrite Hheld'.
Qed.

Lemma pool_run_above c0 σ σ' :
  rtc pool_step σ σ' →
  pool_inv σ.1 σ.2 →
  c0 ≤ id_counter σ.1 ∧ (∀ x, x ∈ omap held σ.2 ++ omap result σ.2 → c0 < x) →
  c0 ≤ id_counter σ'.1 ∧
  (∀ x, x ∈ omap held σ'.2 ++ omap result σ'.2 → c0 < x).
Proof.
  induction 1 as [σ|[s cs] [s1 cs1] σ' Hstep _ IH]; [done|].
  intros Hinv Habove. apply IH.
  - by eapply pool_step_inv.
  - by eapply pool_step_above.
Qed.

(** X14: any number of connections, each making one call, their round
    trips interleaved in any way, on a feed where I1 holds, no id is listed
    twice and none exceeds the counter.  In every state they reach, I1
    holds and no id is listed twice; the ids the calls have returned are
    pairwise different, were not in the feed at the start, and do not
    exceed the counter. *)
Theorem pool_keeps_I1 (s : store) (calls : list call) (s' : store)
    (cs' : list client) :
  I1 s →
  tidy s →
  rtc pool_step (s, Entering <$> calls) (s', cs') →
  I1 s' ∧
  NoDup (get_ids s') ∧
  NoDup (omap result cs') ∧
  (∀ id, id ∈ omap result cs' →
         (id ∉ get_ids s) ∧ id_counter s < id ≤ id_counter s').
Proof.
  intros HI Htidy Hrun.
  pose proof (pool_start_inv s calls HI Htidy) as Hstart.
  destruct (pool_run_inv _ _ Hrun Hstart) as (HI' & Hnd & Hnd2 & Hle & _).
  destruct (pool_run_above (id_counter s) _ _ Hrun Hstart) as [_ Habove].
  { cbn. rewrite omap_held_entering, omap_result_entering.
    split; [lia|]. by intros x ?%elem_of_nil. }
  cbn in *. split_and!; try done.
  - by apply NoDup_app in Hnd as [? _].
  - by apply NoDup_app in Hnd2 as (_ & _ & ?).
  - intros id Hid.
    assert (id_counter s < id) as Hlt.
    { apply Habove, elem_of_app. by right. }
    split_and!; [|done|].
    + intros Hin. destruct Htidy as [_ Hbound].
      rewrite Forall_forall in Hbound. apply Hbound in Hin. lia.
    + apply Hle. rewrite !elem_of_app. auto.
Qed.

Lemma pool_keeps_I1_witness :
  I1 one_item_feed ∧
  tidy one_item_feed ∧
  rtc pool_step (one_item_feed, Entering <$> [PublishTail "b"; Retract 1])
    (after (retract 1) (after (publish "b") one_item_feed),
     [Left (Some 2); Left None]) ∧
  I1 (after (retract 1) (after (publish "b") one_item_feed)).
Proof.
  assert (I1 one_item_feed) as HI by (vm_compute; reflexivity).
  assert (tidy one_item_feed) as Htidy.
  { split; [apply NoDup_singleton|]. apply Forall_singleton.
    vm_compute. discriminate. }
  assert (rtc pool_step
            (one_item_feed, Entering <$> [PublishTail "b"; Retract 1])
            (after (retract 1) (after (publish "b") one_item_feed),
             [Left (Some 2); Left None])) as Hrun.
  { eapply rtc_l; [apply (pool_moves _ [] _ [_]); reflexivity|].
    eapply rtc_l; [apply (pool_moves _ [] _ [_]); reflexivity|].
    eapply rtc_l; [apply (pool_moves _ [_] _ []); reflexivity|].
    eapply rtc_l; [apply (pool_moves _ [_] _ []); reflexivity|].
    eapply rtc_l; [apply (pool_moves _ [_] _ []); reflexivity|].
    eapply rtc_l; [apply (pool_moves _ [_] _ []); reflexivity|].
    apply rtc_refl. }
  split; [exact HI|]. split; [exact Htidy|]. split; [exact Hrun|].
  exact (proj1 (pool_keeps_I1 one_item_feed [PublishTail "b"; Retract 1]
                  _ _ HI Htidy Hrun)).
Defined.

(** ** The pool comes to rest *)

Lemma cost_touch w c : (cost (touch w c) ≤ cost c + 3 * active c)%nat.
Proof.
  destruct w; [|cbn; lia].
  destruct c as [| | ? ? ? ? ph| ? ? ph| ? ph|]; cbn; try lia;
    destruct ph as [|[|]|[|]|]; cbn; lia.
Qed.

Lemma active_touch w c : active (touch w c) = active c.
Proof. by destruct w, c. Qed.

Lemma sum_cost_touch w (l : list client) :
  (sum_list (cost <$> (touch w <$> l))
   ≤ sum_list (cost <$> l) + 3 * sum_list (active <$> l))%nat.
Proof.
  induction l as [|c l IH]; cbn; [lia|].
  pose proof (cost_touch w c). lia.
Qed.

Lemma sum_active_touch w (l : list client) :
  sum_list (active <$> (touch w <$> l)) = sum_list (active <$> l).
Proof.
  induction l as [|c l IH]; cbn; [done|]. by rewrite active_touch, IH.
Qed.

Lemma touch_false (l : list client) : touch false <$> l = l.
Proof. induction l as [|c l IH]; cbn; [done|]. by rewrite IH. Qed.

Lemma pool_client_step_cost c s c' s' w :
  pool_client_step c s = Some (c', s', w) →
  (w = false ∧ (cost c' < cost c)%nat ∧ (active c' ≤ active c)%nat) ∨
  (w = true ∧ cost c' = 0%nat ∧ (1 ≤ cost c)%nat ∧
   active c = 1%nat ∧ active c' = 0%nat).
Proof.
  intros Hstep.
  destruct c as [call|front id item|id item rel m ph|id item ph|id ph|r].
  - destruct call; cbn in Hstep; injection Hstep as <- <- <-;
      left; cbn; split_and!; (done || lia).
  - destruct front; cbn in Hstep; injection Hstep as <- <- <-;
      right; cbn; split_and!; (done || lia).
  - destruct ph as [|[|]|[|]|]; cbn in Hstep; try discriminate;
      try destruct (hexists feed_items rel s);
      injection Hstep as <- <- <-;
      first [ by left; cbn; split_and!; (done || lia)
            | by right; cbn; split_and!; (done || lia) ].
  - destruct ph as [|[|]|[|]|]; cbn in Hstep; try discriminate;
      try destruct (hexists feed_items id s);
      injection Hstep as <- <- <-;
      first [ by left; cbn; split_and!; (done || lia)
            | by right; cbn; split_and!; (done || lia) ].
  - destruct ph as [|[|]|[|]|]; cbn in Hstep; try discriminate;
      try destruct (hexists feed_items id s);
      injection Hstep as <- <- <-;
      first [ by left; cbn; split_and!; (done || lia)
            | by right; cbn; split_and!; (done || lia) ].
  - discriminate.
Qed.

Lemma pool_step_measure s cs s' cs' :
  pool_step (s, cs) (s', cs') → (pool_measure cs' < pool_measure cs)%nat.
Proof.
  intros Hstep. inversion Hstep as [s0 l1 c l2 c' s0' w Hcs]; subst.
  unfold pool_measure.
  rewrite !fmap_app, !fmap_cons, !sum_list_with_app. cbn [sum_list_with].
  repeat match goal with
         | |- context [@id nat ?x] => change (@id nat x) with x
         end.
  rewrite !sum_active_touch.
  pose proof (sum_cost_touch w l1) as Hc1.
  pose proof (sum_cost_touch w l2) as Hc2.
  destruct (pool_client_step_cost c s c' s' w Hcs)
    as [(-> & Hcost & Hact)|(-> & Hcost & Hpos & Hact & Hact')].
  - rewrite !touch_false.
    assert (sum_list (active <$> l1) + (active c' + sum_list (active <$> l2))
            ≤ sum_list (active <$> l1) + (active c + sum_list (active <$> l2)))%nat
      as Hle by lia.
    apply (Nat.pow_le_mono_l _ _ 2) in Hle. lia.
  - rewrite Hcost, Hact, Hact'.
    set (a1 := sum_list (active <$> l1)) in *.
    set (a2 := sum_list (active <$> l2)) in *.
    rewrite !Nat.pow_2_r. clearbody a1 a2.
    generalize dependent (sum_list (cost <$> (touch true <$> l1))).
    generalize dependent (sum_list (cost <$> (touch true <$> l2))).
    intros. nia.
Qed.

Lemma in_loop_touch w c : in_loop c → in_loop (touch w c).
Proof.
  destruct w; [|done].
  destruct c as [| | ? ? ? ? ph| ? ? ph| ? ph|]; try done; by destruct ph.
Qed.

Lemma pool_client_step_in_loop c s c' s' w :
  pool_client_step c s = Some (c', s', w) → in_loop c'.
Proof.
  intros Hstep.
  destruct c as [call|front id item|id item rel m ph|id item ph|id ph|r].
  - by destruct call; cbn in Hstep; injection Hstep as <- <- <-.
  - by injection Hstep as <- <- <-.
  - destruct ph as [|[|]|[|]|]; cbn in Hstep; try discriminate;
      try destruct (hexists feed_items rel s);
      by injection Hstep as <- <- <-.
  - destruct ph as [|[|]|[|]|]; cbn in Hstep; try discriminate;
      try destruct (hexists feed_items id s);
      by injection Hstep as <- <- <-.
  - destruct ph as [|[|]|[|]|]; cbn in Hstep; try discriminate;
      try destruct (hexists feed_items id s);
      by injection Hstep as <- <- <-.
  - discriminate.
Qed.

Lemma pool_step_in_loop s cs s' cs' :
  pool_step (s, cs) (s', cs') → Forall in_loop cs → Forall in_loop cs'.
Proof.
  intros Hstep Hall. inversion Hstep as [s0 l1 c l2 c' s0' w Hcs]; subst.
  apply Forall_app in Hall as [H1 [_ H2]%Forall_cons].
  apply Forall_app. split; [|apply Forall_cons; split].
  - apply Forall_fmap. eapply Forall_impl; [done|]. intros. by apply in_loop_touch.
  - by eapply pool_client_step_in_loop.
  - apply Forall_fmap. eapply Forall_impl; [done|]. intros. by apply in_loop_touch.
Qed.

Lemma pool_client_can_move c s :
  in_loop c → active c = 1%nat → is_Some (pool_client_step c s).
Proof.
  intros Hloop Hactive.
  destruct c as [call|front id item|id item rel m ph|id item ph|id ph|r].
  - by destruct call.
  - done.
  - destruct ph as [|[|]|[|]|]; cbn; try done;
      by destruct (hexists feed_items rel s).
  - destruct ph as [|[|]|[|]|]; cbn; try done;
      by destruct (hexists feed_items id s).
  - destruct ph as [|[|]|[|]|]; cbn; try done;
      by destruct (hexists feed_items id s).
  - discriminate.
Qed.

Lemma pool_progress s cs :
  Forall in_loop cs →
  (∀ c, c ∈ cs → ∃ r, c = Left r) ∨ ∃ σ, pool_step (s, cs) σ.
Proof.
  intros Hall.
  assert ((∀ c, c ∈ cs → ∃ r, c = Left r) ∨
          ∃ l1 c l2, cs = l1 ++ c :: l2 ∧ active c = 1%nat) as [?|Hsome].
  { clear. induction cs as [|c cs IH].
    - left. by intros c ?%elem_of_nil.
    - destruct (decide (active c = 1%nat)) as [Hc|Hc].
      + right. by exists [], c, cs.
      + destruct IH as [IH|(l1 & c0 & l2 & -> & Hc0)].
        * left. intros c1 [->|?]%elem_of_cons; [|by apply IH].
          destruct c; try (by destruct Hc). by eexists.
        * right. by exists (c :: l1), c0, l2. }
  { by left. }
  destruct Hsome as (l1 & c & l2 & -> & Hc). right.
  apply Forall_app in Hall as [_ [Hloop _]%Forall_cons].
  destruct (pool_client_can_move c s Hloop Hc) as [[[c' s'] w] Hstep].
  eexists. by apply pool_moves.
Qed.

Lemma pool_measure_entering (calls : list call) :
  pool_measure (Entering <$> calls)
  = (4 * length calls + 3 * length calls ^ 2)%nat.
Proof.
  unfold pool_measure.
  assert (sum_list (cost <$> (Entering <$> calls)) = 4 * length calls)%nat as ->.
  { induction calls as [|c calls IH]; cbn; [done|]. cbn in IH. lia. }
  assert (sum_list (active <$> (Entering <$> calls)) = length calls) as ->; [|done].
  induction calls as [|c calls IH]; cbn; [done|]. cbn in IH. lia.
Qed.

Lemma pool_run_rest n σ σ' :
  nsteps pool_step n σ σ' →
  Forall in_loop σ.2 →
  Forall in_loop σ'.2 ∧
  (n + pool_measure σ'.2 ≤ pool_measure σ.2)%nat ∧
  length σ'.2 = length σ.2.
Proof.
  induction 1 as [σ|n [s cs] [s1 cs1] σ' Hstep _ IH]; intros Hall.
  - split_and!; [done|lia|done].
  - destruct IH as (Hall' & Hle & Hlen); [by eapply pool_step_in_loop|].
    pose proof (pool_step_measure _ _ _ _ Hstep) as Hlt. cbn [fst snd] in *.
    split_and!; [done|lia|].
    rewrite Hlen. inversion Hstep; subst.
    by rewrite !length_app, !length_cons, !length_fmap.
Qed.

(** X15: the pool comes to rest.  With [k] calls, one per connection, no
    interleaving makes more than [4 k + 3 k ^ 2] round trips; no connection
    is ever lost or added; and in every state reached, either every call has
    returned or some connection can move: the retry loops neither spin for
    ever nor get stuck. *)
Theorem pool_comes_to_rest (s : store) (calls : list call) (n : nat)
    (s' : store) (cs' : list client) :
  nsteps pool_step n (s, Entering <$> calls) (s', cs') →
  (n ≤ 4 * length calls + 3 * length calls ^ 2)%nat ∧
  length cs' = length calls ∧
  ((∀ c, c ∈ cs' → ∃ r, c = Left r) ∨ ∃ σ, pool_step (s', cs') σ).
Proof.
  intros Hrun.
  destruct (pool_run_rest n _ _ Hrun) as (Hall & Hle & Hlen).
  { cbn. apply Forall_fmap, Forall_forall. by intros c _. }
  cbn [fst snd] in *. rewrite pool_measure_entering in Hle.
  rewrite length_fmap in Hlen. split_and!; [lia|done|].
  by apply pool_progress.
Qed.

Lemma pool_comes_to_rest_witness :
  nsteps pool_step 2 (one_item_feed, Entering <$> [PublishTail "b"])
    (after (publish "b") one_item_feed, [Left (Some 2)]) ∧
  (2 ≤ 4 * length [PublishTail "b"] + 3 * length [PublishTail "b"] ^ 2)%nat.
Proof.
  assert (nsteps pool_step 2 (one_item_feed, Entering <$> [PublishTail "b"])
            (after (publish "b") one_item_feed, [Left (Some 2)])) as Hrun.
  { eapply nsteps_l; [apply (pool_moves _ [] _ []); reflexivity|].
    eapply nsteps_l; [apply (pool_moves _ [] _ []); reflexivity|].
    apply nsteps_O. }
  split; [exact Hrun|].
  exact (proj1 (pool_comes_to_rest _ _ _ _ _ Hrun)).
Defined.

(** ** One connection alone *)

Lemma pool_alone_left fuel r s : pool_alone fuel (Left r) s = Some (r, s).
Proof. by destruct fuel. Qed.

Lemma pool_alone_step fuel c s c' s' w :
  pool_client_step c s = Some (c', s', w) →
  pool_alone (S fuel) c s = pool_alone fuel c' s'.
Proof.
  intros Hstep. destruct c; try discriminate; cbn [pool_alone]; by rewrite Hstep.
Qed.

Lemma pool_alone_more fuel k c s x :
  pool_alone fuel c s = Some x → pool_alone (fuel + k) c s = Some x.
Proof.
  revert c s. induction fuel as [|fuel IH]; intros c s.
  - destruct c; try discriminate. cbn. by rewrite pool_alone_left.
  - destruct (pool_client_step c s) as [[[c' s'] w]|] eqn:Hstep.
    + cbn [Nat.add]. rewrite !(pool_alone_step _ _ _ _ _ _ Hstep). apply IH.
    + destruct c; cbn in *; try discriminate; try by rewrite Hstep. done.
Qed.

Lemma pool_step_single s c σ :
  pool_step (s, [c]) σ →
  ∃ c' s' w, pool_client_step c s = Some (c', s', w) ∧ σ = (s', [c']).
Proof.
  intros Hmove. remember (s, [c]) as σ0 eqn:Heq.
  destruct Hmove as [s0 l1 c0 l2 c' s' w Hstep].
  injection Heq as -> Hl.
  destruct l1 as [|? [|? ?]]; simplify_eq/=. by exists c', s', w.
Qed.

Lemma pool_single_run n σ σ' :
  nsteps pool_step n σ σ' →
  ∀ c s r s', σ = (s, [c]) → σ' = (s', [Left r]) →
  pool_alone n c s = Some (r, s').
Proof.
  induction 1 as [σ|n σ σ1 σ' Hstep _ IH]; intros c s r s' -> Hend.
  - injection Hend as -> ->. apply pool_alone_left.
  - apply pool_step_single in Hstep as (c1 & s1 & w & Hstep & ->).
    rewrite (pool_alone_step _ _ _ _ _ _ Hstep). by apply IH.
Qed.

Lemma loop_alone a again r s fuel :
  (∀ ph s0, pool_client_step (again ph) s0 = loop_step a again r ph s0) →
  pool_alone (S (S (S fuel))) (again AtWatch) s =
  Some (if guard a s then (r, after (execute (pipe a)) s) else (None, s)).
Proof.
  intros Hagain.
  erewrite pool_alone_step; [|rewrite Hagain; reflexivity].
  destruct (guard a s) eqn:Hg.
  - erewrite pool_alone_step;
      [|rewrite Hagain; unfold loop_step, client_step; rewrite Hg; reflexivity].
    erewrite pool_alone_step; [|rewrite Hagain; reflexivity].
    apply pool_alone_left.
  - erewrite pool_alone_step;
      [|rewrite Hagain; unfold loop_step, client_step; rewrite Hg; reflexivity].
    apply pool_alone_left.
Qed.

Lemma pool_alone_perform c s :
  pool_alone 5 (Entering c) s = Some (value (perform c) s, after (perform c) s).
Proof.
  destruct c; unfold_call; cbn zeta; try reflexivity.
  - erewrite pool_alone_step; [|reflexivity].
    rewrite (loop_alone (insert_attempt (id_counter s + 1) item before_id BEFORE)
               _ (Some (id_counter s + 1))) by done.
    change (guard _ _) with (hexists feed_items before_id s).
    by destruct (hexists feed_items before_id s).
  - erewrite pool_alone_step; [|reflexivity].
    rewrite (loop_alone (insert_attempt (id_counter s + 1) item after_id AFTER)
               _ (Some (id_counter s + 1))) by done.
    change (guard _ _) with (hexists feed_items after_id s).
    by destruct (hexists feed_items after_id s).
  - erewrite pool_alone_step; [|reflexivity].
    rewrite (loop_alone (edit_attempt id item) _ None) by done.
    change (guard _ _) with (hexists feed_items id s).
    by destruct (hexists feed_items id s).
  - erewrite pool_alone_step; [|reflexivity].
    rewrite (loop_alone (retract_attempt id) _ None) by done.
    change (guard _ _) with (hexists feed_items id s).
    by destruct (hexists feed_items id s).
Qed.

(** X16: a call made while no other connection is active.  However its
    round trips are counted, once the call has returned, the database is
    the one the method is modelled to leave and the value returned is the
    method's; and five moves are enough to get there. *)
Theorem call_alone_is_perform (c : call) (s : store) (n : nat) (s' : store)
    (r : option Z) :
  nsteps pool_step n (s, [Entering c]) (s', [Left r]) →
  s' = after (perform c) s ∧ r = value (perform c) s ∧
  pool_alone 5 (Entering c) s = Some (r, s').
Proof.
  intros Hrun.
  pose proof (pool_single_run n _ _ Hrun _ _ _ _ eq_refl eq_refl) as Halone.
  pose proof (pool_alone_perform c s) as Hfive.
  apply (pool_alone_more _ 5) in Halone.
  apply (pool_alone_more _ n) in Hfive.
  rewrite (Nat.add_comm 5 n), Halone in Hfive.
  injection Hfive as -> ->. split_and!; try done. apply pool_alone_perform.
Qed.

Lemma call_alone_is_perform_witness :
  nsteps pool_step 2 (one_item_feed, [Entering (PublishTail "b")])
    (after (publish "b") one_item_feed, [Left (Some 2)]) ∧
  Some 2 = value (perform (PublishTail "b")) one_item_feed.
Proof.
  assert (nsteps pool_step 2 (one_item_feed, [Entering (PublishTail "b")])
            (after (publish "b") one_item_feed, [Left (Some 2)])) as Hrun.
  { eapply nsteps_l; [apply (pool_moves _ [] _ []); reflexivity|].
    eapply nsteps_l; [apply (pool_moves _ [] _ []); reflexivity|].
    apply nsteps_O. }
  split; [exact Hrun|].
  exact (proj1 (proj2 (call_alone_is_perform _ _ _ _ _ Hrun))).
Defined.
